(** * spiketools: time-indexed extraction, range erasing and epoching

    A shallow embedding of [spiketools/utils/extract.py],
    [spiketools/utils/trials.py] and [spiketools/sim/dist.py], and the
    properties of the specification that are checked against it.

    Numbers.  Timestamps and data values are exact integers ([Z]) where
    the code selects, compares and counts: the arrays of the test-suite
    are integer valued ([np.array([1, 2, 3, 4, 5])]); [NaN] appears only
    as the "no match" value that the code itself produces.  Where a
    property depends on what a subtraction followed by an addition
    returns (dropping a range and reinstating it), the two functions are
    modelled a second time over any numbers with the comparisons and
    operations the code uses ([Numeric]), instantiated with the integers
    and with binary64 floats and their rounding operations.

    Exceptions.  A call either returns or raises: [result].

    Arrays.  The look-up functions never write to an array, they are
    functions of the values.  [drop_range] and [reinstate_range] copy
    their argument and the latter assigns rows in place: they are modelled
    over a store of array buffers, with views sharing a buffer. *)

From Stdlib Require Import ZArith Lia String Qcanon Sorted Floats.
From stdpp Require Import base tactics option list numbers.

Local Open Scope Z_scope.

Set Warnings "-inexact-float".

(** ** Exceptions and results *)

Inductive exn : Type :=
| ValueError (msg : string)
| IndexError
| AssertionError.

Inductive result (A : Type) : Type :=
| Ok (a : A)
| Raise (e : exn).

Arguments Ok {A} a.
Arguments Raise {A} e.

#[global] Instance result_ret : MRet result := fun A a => Ok a.

#[global] Instance result_bind : MBind result := fun A B f r =>
  match r with
  | Ok a => f a
  | Raise e => Raise e
  end.

(** ** utils/extract.py: range selection *)

(** [data >= min_value], where [None] stands for [-np.inf]. *)
Definition ge_min (min_value : option Z) (x : Z) : bool :=
  match min_value with
  | None => true
  | Some m => m <=? x
  end.

(** [data <= max_value], where [None] stands for [np.inf]. *)
Definition le_max (max_value : option Z) (x : Z) : bool :=
  match max_value with
  | None => true
  | Some m => x <=? m
  end.

Definition create_mask (data : list Z) (min_value max_value : option Z) : list bool :=
  map (fun x => ge_min min_value x && le_max max_value x) data.

(** [data[mask]], boolean-mask indexing: a new array of the selected
    elements, in their order. *)
Fixpoint index_mask (data : list Z) (mask : list bool) : list Z :=
  match data, mask with
  | x :: data', b :: mask' =>
      if b then x :: index_mask data' mask' else index_mask data' mask'
  | _, _ => []
  end.

(** Python truthiness of an optional number: [None] and [0] are falsy. *)
Definition truthy (v : option Z) : bool :=
  match v with
  | None => false
  | Some x => negb (x =? 0)
  end.

Definition get_range (data : list Z) (min_value max_value reset : option Z) : list Z :=
  let mask := create_mask data min_value max_value in
  let data := index_mask data mask in
  if truthy reset then map (fun x => x - default 0 reset) data else data.

(** ** utils/extract.py: nearest-time look-up *)

(** [argmin] of a non-empty array: the first index holding the minimum. *)
Fixpoint argmin_from (i best_i : nat) (best : Z) (l : list Z) : nat :=
  match l with
  | [] => best_i
  | x :: l' =>
      if x <? best then argmin_from (S i) i x l' else argmin_from (S i) best_i best l'
  end.

Definition argmin (l : list Z) : result nat :=
  match l with
  | [] => Raise (ValueError "attempt to get argmin of an empty sequence")
  | x :: l' => Ok (argmin_from 1 0 x l')
  end.

(** [times[ind]] for an index in range. *)
Definition getitem (l : list Z) (i : nat) : result Z :=
  match l !! i with
  | Some x => Ok x
  | None => Raise IndexError
  end.

Definition get_ind_by_time (times : list Z) (timepoint : Z) (threshold : option Z)
  : result Z :=
  ind ← argmin (map (fun t => Z.abs (t - timepoint)) times);
  if truthy threshold then
    t ← getitem times ind;
    if Z.abs (t - timepoint) >? default 0 threshold
    then Ok (-1)
    else Ok (Z.of_nat ind)
  else Ok (Z.of_nat ind).

(** The loop of [get_inds_by_times]: [inds[ind] = get_ind_by_time(...)]. *)
Fixpoint get_inds_loop (times : list Z) (threshold : option Z)
    (ind : nat) (timepoints : list Z) (inds : list Z) : result (list Z) :=
  match timepoints with
  | [] => Ok inds
  | timepoint :: rest =>
      i ← get_ind_by_time times timepoint threshold;
      get_inds_loop times threshold (S ind) rest (<[ind := i]> inds)
  end.

Definition get_inds_by_times (times timepoints : list Z) (threshold : option Z)
    (drop_null : bool) : result (list Z) :=
  let inds := replicate (length timepoints) 0 in
  inds ← get_inds_loop times threshold 0 timepoints inds;
  if drop_null then Ok (filter (fun i => 0 ≤ i) inds) else Ok inds.

(** ** utils/extract.py: values at time points *)

(** A [values] argument: a 1d array, or a 2d array of [ncols] columns whose
    rows are channels on the same time base. *)
Inductive values : Type :=
| Vals1 (v : list Z)
| Vals2 (ncols : nat) (rows : list (list Z)).

(** An element of a returned array: a number, or [np.nan]. *)
Inductive num : Type :=
| Fin (z : Z)
| NaN.

(** A returned value: a scalar, a 1d array or a 2d array of [ncols]
    columns. *)
Inductive ndarray : Type :=
| Arr0 (x : num)
| Arr1 (xs : list num)
| Arr2 (ncols : nat) (rows : list (list num)).

(** The position that [take] reads for index [i] on an axis of length [n]:
    negative indices count from the end, anything else out of bounds
    raises. *)
Definition take_index (n : nat) (i : Z) : result nat :=
  if (0 <=? i) && (i <? Z.of_nat n) then Ok (Z.to_nat i)
  else if (- Z.of_nat n <=? i) && (i <? 0) then Ok (Z.to_nat (i + Z.of_nat n))
  else Raise IndexError.

Fixpoint take_indices (n : nat) (inds : list Z) : result (list nat) :=
  match inds with
  | [] => Ok []
  | i :: inds' =>
      p ← take_index n i;
      ps ← take_indices n inds';
      Ok (p :: ps)
  end.

Definition at_pos (row : list Z) (p : nat) : num := Fin (default 0 (row !! p)).

(** [values.take(indices=idx, axis=-1)] for one index. *)
Definition take_scalar (vals : values) (idx : Z) : result ndarray :=
  match vals with
  | Vals1 v =>
      p ← take_index (length v) idx;
      Ok (Arr0 (at_pos v p))
  | Vals2 ncols rows =>
      p ← take_index ncols idx;
      Ok (Arr1 (map (fun row => at_pos row p) rows))
  end.

(** [values.take(indices=inds, axis=-1)] for an array of indices. *)
Definition take_array (vals : values) (inds : list Z) : result ndarray :=
  match vals with
  | Vals1 v =>
      ps ← take_indices (length v) inds;
      Ok (Arr1 (map (at_pos v) ps))
  | Vals2 ncols rows =>
      ps ← take_indices ncols inds;
      Ok (Arr2 (length inds) (map (fun row => map (at_pos row) ps) rows))
  end.

Definition get_value_by_time (times : list Z) (vals : values) (timepoint : Z)
    (threshold : option Z) : result ndarray :=
  idx ← get_ind_by_time times timepoint threshold;
  if 0 <=? idx then take_scalar vals idx else Ok (Arr0 NaN).

(** [np.atleast_2d(values).shape[0]]. *)
Definition nrows_2d (vals : values) : nat :=
  match vals with
  | Vals1 _ => 1
  | Vals2 _ rows => length rows
  end.

(** The rows that [outputs[:, cols] = taken] writes: a 1d [taken] is
    broadcast to every row. *)
Definition taken_row (taken : ndarray) (r : nat) : list num :=
  match taken with
  | Arr0 x => [x]
  | Arr1 xs => xs
  | Arr2 _ rows => default [] (rows !! r)
  end.

(** One row of [outputs] after the assignment: position [j] holds the next
    taken value when [inds[j] >= 0], and stays [NaN] otherwise. *)
Fixpoint fill_row (inds : list Z) (src : list num) : list num :=
  match inds with
  | [] => []
  | i :: inds' =>
      if 0 <=? i then
        match src with
        | x :: src' => x :: fill_row inds' src'
        | [] => NaN :: fill_row inds' []
        end
      else NaN :: fill_row inds' src
  end.

(** [np.squeeze] of a 2d array: axes of length one are removed. *)
Definition squeeze_2d (ncols : nat) (rows : list (list num)) : ndarray :=
  match rows with
  | [row] => if (ncols =? 1)%nat then Arr0 (default NaN (head row)) else Arr1 row
  | _ => if (ncols =? 1)%nat then Arr1 (map (fun row => default NaN (head row)) rows)
         else Arr2 ncols rows
  end.

Definition get_values_by_times (times : list Z) (vals : values) (timepoints : list Z)
    (threshold : option Z) (drop_null : bool) : result ndarray :=
  inds ← get_inds_by_times times timepoints threshold drop_null;
  if drop_null then take_array vals inds
  else
    taken ← take_array vals (filter (fun i => 0 ≤ i) inds);
    let outputs := map (fun r => fill_row inds (taken_row taken r)) (seq 0 (nrows_2d vals)) in
    Ok (squeeze_2d (length timepoints) outputs).

(** Indexing of a returned array: [outputs[0]] and [outputs[:, 0]]. *)
Definition getitem0 (a : ndarray) : result ndarray :=
  match a with
  | Arr0 _ => Raise IndexError
  | Arr1 xs => match xs with x :: _ => Ok (Arr0 x) | [] => Raise IndexError end
  | Arr2 _ rows => match rows with row :: _ => Ok (Arr1 row) | [] => Raise IndexError end
  end.

Definition getcol0 (a : ndarray) : result ndarray :=
  match a with
  | Arr2 (S _) rows => Ok (Arr1 (map (fun row => default NaN (head row)) rows))
  | _ => Raise IndexError
  end.

(** The minimal absolute distance between [timepoint] and any element of
    [times] ([np.min(np.abs(times - timepoint))]); there is none for an
    empty [times]. *)
Definition min_distance (times : list Z) (timepoint : Z) : option Z :=
  match times with
  | [] => None
  | t :: times' =>
      Some (foldr (fun t' d => Z.min (Z.abs (t' - timepoint)) d)
                  (Z.abs (t - timepoint)) times')
  end.

(** ** The array store *)

(** An array object is a view on a buffer of the store: the buffer's
    address and a shape.  The buffer holds the elements in row-major
    order. *)
Record arr : Type := Arr { base : nat; shape : list nat }.

Abbreviation heap := (list (list Z)).

(** A computation on the store that returns or raises; the store
    survives an exception. *)
Definition M (A : Type) : Type := heap -> result A * heap.

#[global] Instance M_ret : MRet M := fun A a h => (Ok a, h).

#[global] Instance M_bind : MBind M := fun A B f m h =>
  match m h with
  | (Ok a, h') => f a h'
  | (Raise e, h') => (Raise e, h')
  end.

Definition raise {A : Type} (e : exn) : M A := fun h => (Raise e, h).

(** The elements of an array. *)
Definition contents (h : heap) (a : arr) : list Z := default [] (h !! base a).

Definition np_read (a : arr) : M (list Z) := fun h => (Ok (contents h a), h).

(** A new array holding [data], of shape [(len(data),)]. *)
Definition np_new (data : list Z) : M arr :=
  fun h => (Ok (Arr (length h) [length data]), h ++ [data]).

(** [a.copy()]: a new buffer with the same elements and shape. *)
Definition np_copy (a : arr) : M arr :=
  fun h => (Ok (Arr (length h) (shape a)), h ++ [contents h a]).

(** [np.atleast_2d(a)]: a view on the same buffer. *)
Definition atleast_2d (a : arr) : arr :=
  match shape a with
  | [] => Arr (base a) [1; 1]%nat
  | [n] => Arr (base a) [1; n]%nat
  | _ => a
  end.

(** [np.squeeze(a)]: a view on the same buffer, without the axes of
    length one. *)
Definition squeeze (a : arr) : arr :=
  Arr (base a) (filter (fun n => n ≠ 1%nat) (shape a)).

Definition nrows (a : arr) : nat := default 0%nat (shape a !! 0%nat).
Definition ncols (a : arr) : nat := default 0%nat (shape a !! 1%nat).

(** [a[ind]], a row of a 2d array: its elements. *)
Definition read_row (a : arr) (ind : nat) : M (list Z) :=
  fun h => (Ok (take (ncols a) (drop (ind * ncols a) (contents h a))), h).

(** [a[ind, :] = new], in place: [new] must have the width of the row,
    or one element, which is broadcast; other lengths raise. *)
Definition assign_row (a : arr) (ind : nat) (new : list Z) : M unit :=
  fun h =>
    let data := contents h a in
    let store row :=
      (Ok (), <[base a := take (ind * ncols a) data ++ row
                           ++ drop (S ind * ncols a) data]> h) in
    if (length new =? ncols a)%nat then store new
    else match new with
         | [x] => store (replicate (ncols a) x)
         | _ => (Raise (ValueError "could not broadcast input array"), h)
         end.

(** ** utils/extract.py: dropping and reinstating time ranges *)

(** [time_range] is given as the rows of [np.array(time_range, ndmin=2)],
    each a pair [start, stop]: one row for a single range. *)
Definition trange_t : Type := Z * Z.

Fixpoint drop_range_loop (time_range : list trange_t) (check_empty : bool)
    (spikes : arr) (total_len : Z) : M arr :=
  match time_range with
  | [] => mret spikes
  | trange :: rest =>
      let trange :=
        if 0 <? total_len then (trange.1 - total_len, trange.2 - total_len)
        else trange in
      data ← np_read spikes;
      _ ← (if check_empty
           then if (length (get_range data (Some trange.1) (Some trange.2) None) =? 0)%nat
                then mret () else raise AssertionError
           else mret ());
      let tlen := trange.2 - trange.1 in
      spikes ← np_new (get_range data None (Some trange.1) None
                       ++ get_range data (Some trange.2) None (Some tlen));
      drop_range_loop rest check_empty spikes (total_len + (trange.2 - trange.1))
  end.

Definition drop_range (spikes : arr) (time_range : list trange_t) (check_empty : bool)
  : M arr :=
  spikes ← np_copy spikes;
  drop_range_loop time_range check_empty spikes 0.

Definition _reinstate_range_1d (spikes : list Z) (time_range : trange_t) : list Z :=
  let tlen := time_range.2 - time_range.1 in
  get_range spikes None (Some time_range.1) None
  ++ map (fun x => x + tlen) (get_range spikes (Some time_range.1) None None).

(** [for ind, spikes_1d in enumerate(spikes)], over the row numbers. *)
Fixpoint reinstate_rows (spikes : arr) (trange : trange_t) (inds : list nat) : M unit :=
  match inds with
  | [] => mret ()
  | ind :: inds' =>
      spikes_1d ← read_row spikes ind;
      _ ← assign_row spikes ind (_reinstate_range_1d spikes_1d trange);
      reinstate_rows spikes trange inds'
  end.

Fixpoint reinstate_range_loop (spikes : arr) (time_range : list trange_t) : M unit :=
  match time_range with
  | [] => mret ()
  | trange :: rest =>
      _ ← reinstate_rows spikes trange (seq 0 (nrows spikes));
      reinstate_range_loop spikes rest
  end.

Definition reinstate_range (spikes : arr) (time_range : list trange_t) : M arr :=
  if (length (shape spikes) <? 3)%nat then
    spikes ← np_copy spikes;
    let spikes := atleast_2d spikes in
    _ ← reinstate_range_loop spikes time_range;
    mret (squeeze spikes)
  else raise AssertionError.

(** ** utils/trials.py: epoching spikes by events *)

(** Modelled from the spec: [restrict_range] is imported by
    [utils/trials.py] from [spiketools.utils.data], which is not among the
    sources.  It is the range selector of the spec's section 4.1 (the
    elements with [min_value <= x <= max_value], in their order, less
    [reset] when one is given), called by the test-suite with the
    arguments and the results of [get_range]. *)
Definition restrict_range (data : list Z) (min_value max_value reset : option Z)
  : list Z :=
  get_range data min_value max_value reset.

(** An entry of the Python list [trials]: [None] until it is assigned. *)
Abbreviation trial_slot := (option (list Z)).

Fixpoint epoch_spikes_loop (spikes : list Z) (window : Z * Z)
    (ind : nat) (events : list Z) (trials : list trial_slot) : list trial_slot :=
  match events with
  | [] => trials
  | event :: rest =>
      let trial :=
        map (fun x => x - event)
            (restrict_range spikes (Some (event + window.1)) (Some (event + window.2)) None) in
      epoch_spikes_loop spikes window (S ind) rest (<[ind := Some trial]> trials)
  end.

Definition epoch_spikes_by_event (spikes events : list Z) (window : Z * Z)
  : list trial_slot :=
  let trials := replicate (length events) None in
  epoch_spikes_loop spikes window 0 events trials.

(** ** sim/dist.py: binomial spike trains *)

(** [p_spiking]: a float, or a 1d array of per-sample probabilities. *)
Inductive p_spiking_t : Type :=
| PFloat (p : Qc)
| PArray (ps : list Qc).

(** What [np.random.binomial] returns: one draw, or an array of draws. *)
Inductive draws : Type :=
| Draw (x : Z)
| DrawArray (xs : list Z).

(** [np.random.binomial(n, p=..., size=...)] is the library's: a parameter
    of the model. *)
Definition binomial_t : Type := Z -> p_spiking_t -> option Z -> result draws.

Definition n_samples_msg : string :=
  "Input variable 'n_samples' must be defined if 'p_spiking' is a float".

Definition isinstance_float (p_spiking : p_spiking_t) : bool :=
  match p_spiking with
  | PFloat _ => true
  | PArray _ => false
  end.

Definition is_none {A : Type} (o : option A) : bool :=
  match o with
  | None => true
  | Some _ => false
  end.

Definition sim_spiketrain_binom (np_random_binomial : binomial_t)
    (p_spiking : p_spiking_t) (n_samples : option Z) : result draws :=
  if isinstance_float p_spiking && is_none n_samples
  then Raise (ValueError n_samples_msg)
  else np_random_binomial 1 p_spiking n_samples.

(** ** utils/extract.py: further selections *)

(** [times[mask]] with a mask computed from another array: boolean-mask
    indexing raises when the lengths differ. *)
Definition index_mask_checked (data : list Z) (mask : list bool) : result (list Z) :=
  if (length mask =? length data)%nat then Ok (index_mask data mask)
  else Raise IndexError.

Definition get_value_range (times data : list Z) (min_value max_value reset : option Z)
  : result (list Z * list Z) :=
  let mask := create_mask data min_value max_value in
  times ← index_mask_checked times mask;
  let data := index_mask data mask in
  if truthy reset then Ok (map (fun x => x - default 0 reset) times, data)
  else Ok (times, data).

(** [np.where(select)[0]]: the positions at which the mask is true. *)
Fixpoint where_from (i : nat) (select : list bool) : list Z :=
  match select with
  | [] => []
  | b :: select' =>
      if b then Z.of_nat i :: where_from (S i) select' else where_from (S i) select'
  end.

Definition get_values_by_time_range (times : list Z) (vals : values) (t_min t_max : Z)
  : result (list Z * ndarray) :=
  let select := map (fun t => (t_min <=? t) && (t <=? t_max)) times in
  out ← take_array vals (where_from 0 select);
  Ok (index_mask times select, out).

(** The loop of [threshold_spikes_by_times]:
    [mask[ind] = np.min(np.abs(times - spike)) < threshold]; the minimum
    of an empty array raises. *)
Fixpoint threshold_mask_loop (times : list Z) (threshold : Z)
    (ind : nat) (spikes : list Z) (mask : list bool) : result (list bool) :=
  match spikes with
  | [] => Ok mask
  | spike :: rest =>
      d ← match min_distance times spike with
          | Some d => Ok d
          | None => Raise (ValueError "zero-size array to reduction operation minimum which has no identity")
          end;
      threshold_mask_loop times threshold (S ind) rest (<[ind := d <? threshold]> mask)
  end.

(** [np.empty_like(spikes, dtype=bool)] is written at every position
    before it is read; it starts here as all [false]. *)
Definition threshold_spikes_by_times (spikes times : list Z) (threshold : Z)
  : result (list Z) :=
  let mask := replicate (length spikes) false in
  mask ← threshold_mask_loop times threshold 0 spikes mask;
  Ok (index_mask spikes mask).

(** ** utils/trials.py: epoching spikes by ranges *)

(** [for ind, (start, stop) in enumerate(zip(starts, stops))]: the loop
    ends with the shorter of the two lists. *)
Fixpoint epoch_range_loop (spikes : list Z) (reset : bool)
    (ind : nat) (starts stops : list Z) (trials : list trial_slot) : list trial_slot :=
  match starts, stops with
  | start :: starts', stop :: stops' =>
      let trial := restrict_range spikes (Some start) (Some stop) None in
      let trial := if reset then map (fun x => x - start) trial else trial in
      epoch_range_loop spikes reset (S ind) starts' stops' (<[ind := Some trial]> trials)
  | _, _ => trials
  end.

Definition epoch_spikes_by_range (spikes starts stops : list Z) (reset : bool)
  : list trial_slot :=
  let trials := replicate (length starts) None in
  epoch_range_loop spikes reset 0 starts stops trials.

(** ** sim/prob.py: spike trains from probabilities *)

(** [np.random.rand(n)], [n] draws from [0, 1), is the library's: a
    parameter of the model. *)
Definition rand_t : Type := nat -> list Qc.

(** [np.ones(n_samples) * p_spiking]. *)
Definition ones_times (n_samples : Z) (p : Qc) : result (list Qc) :=
  if n_samples <? 0 then Raise (ValueError "negative dimensions are not allowed")
  else Ok (replicate (Z.to_nat n_samples) (1 * p)%Qc).

Definition sim_spiketrain_prob (np_random_rand : rand_t)
    (p_spiking : p_spiking_t) (n_samples : option Z) : result (list Z) :=
  probs ← match p_spiking with
          | PFloat p =>
              match n_samples with
              | Some n => ones_times n p
              | None => Raise (ValueError n_samples_msg)
              end
          | PArray ps => Ok ps
          end;
  let spikes := zip_with (fun p u => bool_decide (u < p)%Qc) probs
                  (np_random_rand (length probs)) in
  Ok (map (fun b : bool => if b then 1 else 0) spikes).

(** ** Dropping and reinstating ranges, on rounded numbers *)

(** Spike times and ranges are floating-point numbers, and [drop_range]
    and [reinstate_range] subtract and add them.  Here the same two
    functions are written over any numbers that have the comparisons and
    the (rounding) operations the code uses, with two instances: the
    integers, and binary64 floats with their IEEE operations. *)
Module Numeric.

Class Number (T : Type) : Type := {
  num_zero : T;                  (* the initial [total_len = 0] *)
  num_leb : T -> T -> bool;      (* [x <= y] *)
  num_ltb : T -> T -> bool;      (* [x < y] *)
  num_from_neg_inf : T -> bool;  (* [x >= -np.inf] *)
  num_to_pos_inf : T -> bool;    (* [x <= np.inf] *)
  num_sub : T -> T -> T;         (* [x - y] *)
  num_add : T -> T -> T;         (* [x + y] *)
  num_truthy : T -> bool;        (* [bool(x)]: [x != 0] *)
  (* [0 > 0] is false *)
  num_zero_not_pos : num_ltb num_zero num_zero = false;
  (* numbers that compare are within the infinities *)
  num_leb_bounded x y :
    num_leb x y = true -> num_from_neg_inf x = true ∧ num_to_pos_inf y = true
}.

#[global] Instance number_Z : Number Z := {|
  num_zero := 0;
  num_leb := Z.leb;
  num_ltb := Z.ltb;
  num_from_neg_inf := fun _ => true;
  num_to_pos_inf := fun _ => true;
  num_sub := Z.sub;
  num_add := Z.add;
  num_truthy := fun x => negb (x =? 0);
  num_zero_not_pos := eq_refl;
  num_leb_bounded := fun _ _ _ => conj eq_refl eq_refl
|}.

#[global] Instance number_float : Number float.
Proof.
  refine {|
    num_zero := 0%float;
    num_leb := PrimFloat.leb;
    num_ltb := PrimFloat.ltb;
    num_from_neg_inf := fun x => PrimFloat.leb neg_infinity x;
    num_to_pos_inf := fun x => PrimFloat.leb x infinity;
    num_sub := PrimFloat.sub;
    num_add := PrimFloat.add;
    num_truthy := fun x => negb (PrimFloat.eqb x 0%float);
    num_zero_not_pos := eq_refl;
    num_leb_bounded := _
  |}.
  intros x y. rewrite !leb_spec.
  change (Prim2SF neg_infinity) with (S754_infinity true).
  change (Prim2SF infinity) with (S754_infinity false).
  destruct (Prim2SF x) as [sx|sx| |sx mx ex], (Prim2SF y) as [sy|sy| |sy my ey];
    cbn; try discriminate; try (destruct sx); try (destruct sy);
    try discriminate; auto.
Defined.

Section model.
Context {T : Type} `{!Number T}.

(** [data >= min_value], where [None] stands for [-np.inf]. *)
Definition ge_min (min_value : option T) (x : T) : bool :=
  match min_value with
  | None => num_from_neg_inf x
  | Some m => num_leb m x
  end.

(** [data <= max_value], where [None] stands for [np.inf]. *)
Definition le_max (max_value : option T) (x : T) : bool :=
  match max_value with
  | None => num_to_pos_inf x
  | Some m => num_leb x m
  end.

Definition create_mask (data : list T) (min_value max_value : option T) : list bool :=
  map (fun x => ge_min min_value x && le_max max_value x) data.

Fixpoint index_mask (data : list T) (mask : list bool) : list T :=
  match data, mask with
  | x :: data', b :: mask' =>
      if b then x :: index_mask data' mask' else index_mask data' mask'
  | _, _ => []
  end.

(** Python truthiness of an optional number. *)
Definition truthy (v : option T) : bool :=
  match v with
  | None => false
  | Some x => num_truthy x
  end.

Definition get_range (data : list T) (min_value max_value reset : option T) : list T :=
  let mask := create_mask data min_value max_value in
  let data := index_mask data mask in
  if truthy reset then map (fun x => num_sub x (default num_zero reset)) data else data.

(** The store of array buffers, and computations on it. *)
Definition M (A : Type) : Type := list (list T) -> result A * list (list T).

#[global] Instance M_ret : MRet M := fun A a h => (Ok a, h).

#[global] Instance M_bind : MBind M := fun A B f m h =>
  match m h with
  | (Ok a, h') => f a h'
  | (Raise e, h') => (Raise e, h')
  end.

Definition raise {A : Type} (e : exn) : M A := fun h => (Raise e, h).

Definition contents (h : list (list T)) (a : arr) : list T := default [] (h !! base a).

Definition np_read (a : arr) : M (list T) := fun h => (Ok (contents h a), h).

Definition np_new (data : list T) : M arr :=
  fun h => (Ok (Arr (length h) [length data]), h ++ [data]).

Definition np_copy (a : arr) : M arr :=
  fun h => (Ok (Arr (length h) (shape a)), h ++ [contents h a]).

Definition read_row (a : arr) (ind : nat) : M (list T) :=
  fun h => (Ok (take (ncols a) (drop (ind * ncols a) (contents h a))), h).

Definition assign_row (a : arr) (ind : nat) (new : list T) : M unit :=
  fun h =>
    let data := contents h a in
    let store row :=
      (Ok (), <[base a := take (ind * ncols a) data ++ row
                           ++ drop (S ind * ncols a) data]> h) in
    if (length new =? ncols a)%nat then store new
    else match new with
         | [x] => store (replicate (ncols a) x)
         | _ => (Raise (ValueError "could not broadcast input array"), h)
         end.

Fixpoint drop_range_loop (time_range : list (T * T)) (check_empty : bool)
    (spikes : arr) (total_len : T) : M arr :=
  match time_range with
  | [] => mret spikes
  | trange :: rest =>
      let trange :=
        if num_ltb num_zero total_len
        then (num_sub trange.1 total_len, num_sub trange.2 total_len)
        else trange in
      data ← np_read spikes;
      _ ← (if check_empty
           then if (length (get_range data (Some trange.1) (Some trange.2) None) =? 0)%nat
                then mret () else raise AssertionError
           else mret ());
      let tlen := num_sub trange.2 trange.1 in
      spikes ← np_new (get_range data None (Some trange.1) None
                       ++ get_range data (Some trange.2) None (Some tlen));
      drop_range_loop rest check_empty spikes
        (num_add total_len (num_sub trange.2 trange.1))
  end.

Definition drop_range (spikes : arr) (time_range : list (T * T)) (check_empty : bool)
  : M arr :=
  spikes ← np_copy spikes;
  drop_range_loop time_range check_empty spikes num_zero.

Definition _reinstate_range_1d (spikes : list T) (time_range : T * T) : list T :=
  let tlen := num_sub time_range.2 time_range.1 in
  get_range spikes None (Some time_range.1) None
  ++ map (fun x => num_add x tlen) (get_range spikes (Some time_range.1) None None).

Fixpoint reinstate_rows (spikes : arr) (trange : T * T) (inds : list nat) : M unit :=
  match inds with
  | [] => mret ()
  | ind :: inds' =>
      spikes_1d ← read_row spikes ind;
      _ ← assign_row spikes ind (_reinstate_range_1d spikes_1d trange);
      reinstate_rows spikes trange inds'
  end.

Fixpoint reinstate_range_loop (spikes : arr) (time_range : list (T * T)) : M unit :=
  match time_range with
  | [] => mret ()
  | trange :: rest =>
      _ ← reinstate_rows spikes trange (seq 0 (nrows spikes));
      reinstate_range_loop spikes rest
  end.

Definition reinstate_range (spikes : arr) (time_range : list (T * T)) : M arr :=
  if (length (shape spikes) <? 3)%nat then
    spikes ← np_copy spikes;
    let spikes := atleast_2d spikes in
    _ ← reinstate_range_loop spikes time_range;
    mret (squeeze spikes)
  else raise AssertionError.

(** *** Notions used to state the properties *)

(** On the values of [l], [<=] is total and transitive: they are numbers
    in an order, none of them a NaN. *)
Definition ordered_on (l : list T) : bool :=
  forallb (fun x =>
    forallb (fun y =>
      (num_leb x y || num_leb y x)
      && forallb (fun z => implb (num_leb x y && num_leb y z) (num_leb x z)) l) l) l.

(** Non-decreasing order: every element is [<=] all the later ones. *)
Fixpoint sortedb (l : list T) : bool :=
  match l with
  | [] => true
  | x :: l' => forallb (num_leb x) l' && sortedb l'
  end.

(** What [get_range(spikes, min_value=stop, reset=tlen)] makes of a spike
    for [tlen = stop - start]: the spike less [tlen], unless [tlen] is
    falsy. *)
Definition shifted (start stop x : T) : T :=
  if num_truthy (num_sub stop start) then num_sub x (num_sub stop start) else x.

(** A spike that was dropped with the range and reinstated with it. *)
Definition restored (start stop x : T) : T :=
  num_add (shifted start stop x) (num_sub stop start).

End model.

End Numeric.

(** ** Notions used to state the properties *)

(** Everything up to the range start, followed by everything from the
    range end on, shifted left by the range length. *)
Definition drop_splice (data : list Z) (trange : trange_t) : list Z :=
  filter (fun x => x ≤ trange.1) data
  ++ map (fun x => x - (trange.2 - trange.1)) (filter (fun x => trange.2 ≤ x) data).

(** A range of the list, moved by the length dropped so far. *)
Definition adjust_trange (total_len : Z) (trange : trange_t) : trange_t :=
  if 0 <? total_len then (trange.1 - total_len, trange.2 - total_len) else trange.

(** The spikes that are left and the adjusted range, at each range of the
    list in turn, when every range is spliced out. *)
Fixpoint drop_trace (data : list Z) (total_len : Z) (time_range : list trange_t)
  : list (list Z * trange_t) :=
  match time_range with
  | [] => []
  | trange :: rest =>
      let trange := adjust_trange total_len trange in
      (data, trange)
      :: drop_trace (drop_splice data trange) (total_len + (trange.2 - trange.1)) rest
  end.

(** A spike of [data] lies in the closed range. *)
Definition spike_within (st : list Z * trange_t) : Prop :=
  Exists (fun s => st.2.1 ≤ s ≤ st.2.2) st.1.

#[global] Instance spike_within_dec st : Decision (spike_within st).
Proof. unfold spike_within. apply _. Defined.

(** The query matches: there is no threshold, or the nearest sample is
    within it. *)
Definition within_threshold (times : list Z) (timepoint : Z) (threshold : option Z)
  : Prop :=
  match threshold with
  | None => True
  | Some t => ∀ d, min_distance times timepoint = Some d -> d ≤ t
  end.

(** The trial of one event, as the specification words it: the spikes
    in the window around the event, relative to the event. *)
Definition trial_of (spikes : list Z) (window : Z * Z) (event : Z) : list Z :=
  map (fun s => s - event)
      (filter (fun s => event + window.1 ≤ s ≤ event + window.2) spikes).

(** Within the optional bounds of a range selection. *)
Definition in_bounds (min_value max_value : option Z) (x : Z) : Prop :=
  ge_min min_value x && le_max max_value x.

(** The trial of one range: the spikes within it, relative to its start
    when [reset] is set. *)
Definition trial_of_range (spikes : list Z) (reset : bool) (range : Z * Z) : list Z :=
  let trial := filter (fun s => range.1 ≤ s ≤ range.2) spikes in
  if reset then map (fun s => s - range.1) trial else trial.

(** A spike train holds zeros and ones. *)
Definition binary (x : Z) : Prop := x = 0 ∨ x = 1.

(** * Properties *)

(** ** Range selection *)

Section range_selection.
Implicit Types (data spikes : list Z) (x a b : Z).

Lemma index_mask_filter (f : Z -> bool) (P : Z -> Prop) `{!∀ x, Decision (P x)} data :
  (∀ x, f x = true ↔ P x) ->
  index_mask data (map f data) = filter P data.
Proof.
  intros Hf. induction data as [|x data IH]; [done|].
  cbn [map index_mask]. rewrite filter_cons, IH.
  destruct (f x) eqn:Hx; destruct (decide (P x)) as [HP|HP]; try done.
  - apply Hf in Hx. done.
  - apply Hf in HP. congruence.
Qed.

Lemma map_sub_0 data : map (fun x => x - 0) data = data.
Proof.
  induction data as [|x data IH]; [done|].
  cbn [map]. rewrite IH. f_equal. lia.
Qed.

(** Whatever [reset] is, the selected elements are returned less
    [reset], counted as zero when it is absent. *)
Lemma get_range_reset data (min_value max_value reset : option Z) :
  get_range data min_value max_value reset
  = map (fun x => x - default 0 reset) (get_range data min_value max_value None).
Proof.
  unfold get_range. destruct reset as [r|]; cbn [truthy default].
  - destruct (Z.eqb_spec r 0) as [->|_]; cbn [negb]; [by rewrite map_sub_0|done].
  - by rewrite map_sub_0.
Qed.

Lemma get_range_below data a :
  get_range data None (Some a) None = filter (fun x => x ≤ a) data.
Proof.
  unfold get_range, create_mask. cbn [truthy ge_min le_max].
  apply index_mask_filter. intros x. cbn [andb]. apply Z.leb_le.
Qed.

Lemma get_range_above data b :
  get_range data (Some b) None None = filter (fun x => b ≤ x) data.
Proof.
  unfold get_range, create_mask. cbn [truthy ge_min le_max].
  apply index_mask_filter. intros x. rewrite andb_true_r. apply Z.leb_le.
Qed.

Lemma get_range_between data a b :
  get_range data (Some a) (Some b) None = filter (fun x => a ≤ x ≤ b) data.
Proof.
  unfold get_range, create_mask. cbn [truthy ge_min le_max].
  apply index_mask_filter. intros x.
  rewrite andb_true_iff, !Z.leb_le. done.
Qed.

(** C3. [get_range] with [reset=0] returns exactly what it returns with
    no [reset]: zero is falsy, so no subtraction is applied. *)
Theorem get_range_reset_zero data (min_value max_value : option Z) :
  get_range data min_value max_value (Some 0)
  = get_range data min_value max_value None.
Proof. unfold get_range. cbn [truthy Z.eqb negb]. done. Qed.

End range_selection.

(** ** Running [drop_range] and [reinstate_range] on the store *)

Section store.
Implicit Types (h : heap) (a spikes : arr) (data xs : list Z).

Lemma drop_range_loop_step trange rest check_empty a total_len h :
  drop_range_loop (trange :: rest) check_empty a total_len h
  = let trange' := adjust_trange total_len trange in
    let data := contents h a in
    if check_empty
       && negb (bool_decide (filter (fun x => trange'.1 ≤ x ≤ trange'.2) data = []))
    then (Raise AssertionError, h)
    else drop_range_loop rest check_empty
           (Arr (length h) [length (drop_splice data trange')])
           (total_len + (trange'.2 - trange'.1))
           (h ++ [drop_splice data trange']).
Proof.
  cbn [drop_range_loop]. fold (adjust_trange total_len trange).
  set (trange' := adjust_trange total_len trange). cbn zeta.
  unfold mbind, M_bind, np_read. cbn beta iota.
  rewrite get_range_between, get_range_below, (get_range_reset _ _ _ (Some _)),
    get_range_above.
  cbn [default]. fold (drop_splice (contents h a) trange').
  destruct check_empty; cbn [andb].
  - destruct (filter _ (contents h a)) as [|y l] eqn:Hf.
    + rewrite bool_decide_eq_true_2 by done. done.
    + rewrite bool_decide_eq_false_2 by done. done.
  - done.
Qed.

Lemma drop_range_run spikes time_range check_empty h :
  drop_range spikes time_range check_empty h
  = drop_range_loop time_range check_empty (Arr (length h) (shape spikes)) 0
      (h ++ [contents h spikes]).
Proof. done. Qed.

(** *** The frame: buffers that exist before a call *)

Lemma drop_range_loop_frame time_range check_empty a total_len h l data :
  h !! l = Some data ->
  (drop_range_loop time_range check_empty a total_len h).2 !! l = Some data.
Proof.
  revert a total_len h.
  induction time_range as [|trange rest IH]; intros a total_len h Hl; [done|].
  rewrite drop_range_loop_step. cbn zeta.
  destruct (check_empty && _); [done|].
  apply IH. by apply lookup_app_l_Some.
Qed.

Lemma assign_row_frame a ind new h l :
  l ≠ base a -> (assign_row a ind new h).2 !! l = h !! l.
Proof.
  intros Hl. unfold assign_row.
  destruct (length new =? ncols a)%nat; cbn [snd].
  - by apply list_lookup_insert_ne.
  - destruct new as [|x [|y new]]; cbn [snd]; [done| |done].
    by apply list_lookup_insert_ne.
Qed.

Lemma reinstate_rows_frame a trange inds h l :
  l ≠ base a -> (reinstate_rows a trange inds h).2 !! l = h !! l.
Proof.
  intros Hl. revert h.
  induction inds as [|ind inds IH]; intros h; [done|].
  cbn [reinstate_rows]. unfold mbind, M_bind, read_row. cbn beta iota.
  pose proof (assign_row_frame a ind
    (_reinstate_range_1d (take (ncols a) (drop (ind * ncols a) (contents h a))) trange)
    h l Hl) as Hrow.
  destruct (assign_row a ind _ h) as [[[]|e] h']; cbn [snd] in *.
  - by rewrite IH.
  - done.
Qed.

Lemma reinstate_range_loop_frame a time_range h l :
  l ≠ base a -> (reinstate_range_loop a time_range h).2 !! l = h !! l.
Proof.
  intros Hl. revert h.
  induction time_range as [|trange rest IH]; intros h; [done|].
  cbn [reinstate_range_loop]. unfold mbind, M_bind. cbn beta iota.
  pose proof (reinstate_rows_frame a trange (seq 0 (nrows a)) h l Hl) as Hrows.
  destruct (reinstate_rows a trange _ h) as [[[]|e] h']; cbn [snd] in *.
  - by rewrite IH.
  - done.
Qed.

Lemma base_atleast_2d a : base (atleast_2d a) = base a.
Proof. unfold atleast_2d. by destruct (shape a) as [|n [|m s]]. Qed.

Lemma reinstate_range_frame spikes time_range h l data :
  h !! l = Some data ->
  (reinstate_range spikes time_range h).2 !! l = Some data.
Proof.
  intros Hl. unfold reinstate_range.
  destruct (length (shape spikes) <? 3)%nat; [|done].
  unfold mbind, M_bind, np_copy. cbn beta iota.
  set (copy := Arr (length h) (shape spikes)).
  assert (l ≠ base (atleast_2d copy)) as Hne.
  { rewrite base_atleast_2d. cbn [copy base].
    apply lookup_lt_Some in Hl. lia. }
  pose proof (reinstate_range_loop_frame (atleast_2d copy) time_range
                (h ++ [contents h spikes]) l Hne) as Hloop.
  destruct (reinstate_range_loop _ time_range _) as [[[]|e] h'];
    unfold mret, M_ret; cbn [snd] in *;
    rewrite Hloop; by apply lookup_app_l_Some.
Qed.

(** C7. Neither [drop_range] nor [reinstate_range] writes to an array
    that exists when it is called, the caller's array among them:
    whether the call returns or raises, every buffer of the store holds
    afterwards what it held before. *)
Theorem drop_reinstate_preserve_input spikes time_range check_empty h l data :
  h !! l = Some data ->
  (drop_range spikes time_range check_empty h).2 !! l = Some data
  ∧ (reinstate_range spikes time_range h).2 !! l = Some data.
Proof.
  intros Hl. split.
  - rewrite drop_range_run. apply drop_range_loop_frame.
    by apply lookup_app_l_Some.
  - by apply reinstate_range_frame.
Qed.

(** *** Dropping ranges *)

Lemma contents_new h data sh : contents (h ++ [data]) (Arr (length h) sh) = data.
Proof. unfold contents. cbn [base]. by rewrite list_lookup_middle. Qed.

Lemma filter_nil_not_within data (trange : trange_t) :
  filter (fun x => trange.1 ≤ x ≤ trange.2) data = [] ↔ ¬ spike_within (data, trange).
Proof.
  unfold spike_within. cbn [fst snd].
  induction data as [|x data IH].
  { split; [|done]. intros _ H. by apply Exists_nil in H. }
  rewrite filter_cons, Exists_cons. destruct (decide _) as [Hx|Hx].
  - split; [done|]. intros H. destruct H. by left.
  - rewrite IH. tauto.
Qed.

(** Without the check the loop never raises. *)
Lemma drop_range_loop_unchecked time_range a total_len h :
  ∃ a' h', drop_range_loop time_range false a total_len h = (Ok a', h').
Proof.
  revert a total_len h.
  induction time_range as [|trange rest IH]; intros a total_len h; [by eexists _, _|].
  rewrite drop_range_loop_step. cbn zeta. cbn [andb]. apply IH.
Qed.

Lemma drop_range_loop_all_empty time_range a total_len h :
  Forall (fun st => ¬ spike_within st) (drop_trace (contents h a) total_len time_range) ->
  drop_range_loop time_range true a total_len h
  = drop_range_loop time_range false a total_len h.
Proof.
  revert a total_len h.
  induction time_range as [|trange rest IH]; intros a total_len h Htrace; [done|].
  cbn [drop_trace] in Htrace. apply Forall_cons_1 in Htrace as [Hhd Htl].
  rewrite !drop_range_loop_step. cbn zeta. cbn [andb].
  apply filter_nil_not_within in Hhd.
  rewrite bool_decide_eq_true_2 by done. cbn [negb].
  apply IH. by rewrite contents_new.
Qed.

Lemma drop_range_loop_some_spike time_range a total_len h :
  Exists spike_within (drop_trace (contents h a) total_len time_range) ->
  ∃ h', drop_range_loop time_range true a total_len h = (Raise AssertionError, h').
Proof.
  revert a total_len h.
  induction time_range as [|trange rest IH]; intros a total_len h Htrace.
  { by apply Exists_nil in Htrace. }
  cbn [drop_trace] in Htrace. rewrite drop_range_loop_step. cbn zeta. cbn [andb].
  destruct (decide (filter (fun x => (adjust_trange total_len trange).1 ≤ x
                                     ≤ (adjust_trange total_len trange).2)
                      (contents h a) = [])) as [Hnil|Hcons].
  - rewrite bool_decide_eq_true_2 by done. cbn [negb].
    rewrite Exists_cons in Htrace. destruct Htrace as [Hhd|Htl].
    + by apply filter_nil_not_within in Hnil.
    + apply IH. by rewrite contents_new.
  - rewrite bool_decide_eq_false_2 by done. by eexists.
Qed.

(** C6. With [check_empty], [drop_range] raises an [AssertionError] as
    soon as a range of the list, moved by the length dropped before it,
    holds a spike of what is left of the array; when no range does, it
    returns, and returns what it returns without the check. *)
Theorem drop_range_check_empty spikes time_range h :
  (Exists spike_within (drop_trace (contents h spikes) 0 time_range) ->
   ∃ h', drop_range spikes time_range true h = (Raise AssertionError, h'))
  ∧ (Forall (fun st => ¬ spike_within st) (drop_trace (contents h spikes) 0 time_range) ->
     ∃ a' h', drop_range spikes time_range true h = (Ok a', h')
              ∧ drop_range spikes time_range false h = (Ok a', h')).
Proof.
  rewrite !drop_range_run. split; intros Htrace.
  - apply drop_range_loop_some_spike. by rewrite contents_new.
  - rewrite drop_range_loop_all_empty by by rewrite contents_new.
    destruct (drop_range_loop_unchecked time_range (Arr (length h) (shape spikes)) 0
                (h ++ [contents h spikes])) as (a' & h' & Hrun).
    by exists a', h'.
Qed.

(** *** Reinstating a range into a 1d array *)

Lemma reinstate_1d_filter xs (trange : trange_t) :
  _reinstate_range_1d xs trange
  = filter (fun x => x ≤ trange.1) xs
    ++ map (fun x => x + (trange.2 - trange.1)) (filter (fun x => trange.1 ≤ x) xs).
Proof. unfold _reinstate_range_1d. by rewrite get_range_below, get_range_above. Qed.

(** Each spike equal to the range start is selected twice. *)
Lemma reinstate_1d_length xs (trange : trange_t) :
  length (_reinstate_range_1d xs trange)
  = (length xs + length (filter (fun x => x = trange.1) xs))%nat.
Proof.
  rewrite reinstate_1d_filter, length_app, length_map.
  induction xs as [|x xs IH]; [done|].
  rewrite !filter_cons.
  destruct (decide (x ≤ trange.1)); destruct (decide (trange.1 ≤ x));
    destruct (decide (x = trange.1)); cbn [length]; lia.
Qed.

Lemma assign_row_whole h xs new :
  length new = length xs ->
  assign_row (Arr (length h) [1; length xs]%nat) 0 new (h ++ [xs]) = (Ok (), h ++ [new]).
Proof.
  intros Hlen. unfold assign_row, ncols. cbn [shape lookup list_lookup default base].
  rewrite contents_new, Hlen, Nat.eqb_refl.
  cbn [Nat.mul]. unfold id. rewrite take_0, Nat.add_0_r, drop_all, app_nil_r. cbn [app].
  f_equal. rewrite <- (Nat.add_0_r (length h)), insert_app_r. done.
Qed.

Lemma assign_row_mismatch h xs new :
  length new ≠ length xs -> length new ≠ 1%nat ->
  assign_row (Arr (length h) [1; length xs]%nat) 0 new (h ++ [xs])
  = (Raise (ValueError "could not broadcast input array"), h ++ [xs]).
Proof.
  intros Hlen Hone. unfold assign_row, ncols. cbn [shape lookup list_lookup default base].
  unfold id. apply Nat.eqb_neq in Hlen. rewrite Hlen.
  by destruct new as [|x [|y new]].
Qed.

(** The first range of the list, on a 1d array: one row is read,
    reinstated and assigned. *)
Lemma reinstate_range_1d_first h a xs trange rest :
  h !! base a = Some xs -> shape a = [length xs] ->
  reinstate_range a (trange :: rest) h
  = let a2 := Arr (length h) [1; length xs]%nat in
    match assign_row a2 0 (_reinstate_range_1d xs trange) (h ++ [xs]) with
    | (Ok _, h') =>
        match reinstate_range_loop a2 rest h' with
        | (Ok _, h'') => (Ok (squeeze a2), h'')
        | (Raise e, h'') => (Raise e, h'')
        end
    | (Raise e, h') => (Raise e, h')
    end.
Proof.
  intros Hxs Hshape. unfold reinstate_range. rewrite Hshape. cbn [length Nat.ltb Nat.leb].
  unfold mbind, M_bind, np_copy. cbn beta iota.
  unfold contents at 1. rewrite Hxs, Hshape. cbn [default id].
  unfold atleast_2d. cbn [shape base].
  cbn [reinstate_range_loop]. unfold mbind, M_bind, nrows.
  cbn [shape lookup list_lookup default id seq reinstate_rows].
  unfold mbind, M_bind, read_row, ncols.
  cbn [shape lookup list_lookup default id Nat.mul drop].
  rewrite contents_new, take_ge by done.
  destruct (assign_row _ 0 _ _) as [[[]|e] h']; [|done].
  cbn [reinstate_rows]. unfold mret at 1, M_ret at 1.
  by destruct (reinstate_range_loop _ rest h') as [[[]|e] h''].
Qed.

(** C9. When a 1d array holds a spike equal to the start of the range,
    [reinstate_range] does not return: the spike is selected both into
    the segment up to the start and into the shifted segment from the
    start on, the reinstated row is longer than the array (by one for
    each such spike), and assigning it to the row raises. *)
Theorem reinstate_range_spike_at_start h spikes xs start stop rest :
  h !! base spikes = Some xs -> shape spikes = [length xs] -> start ∈ xs ->
  start ∈ filter (fun x => x ≤ start) xs
  ∧ start ∈ filter (fun x => start ≤ x) xs
  ∧ length (_reinstate_range_1d xs (start, stop))
    = (length xs + length (filter (fun x => x = start) xs))%nat
  ∧ (length xs < length (_reinstate_range_1d xs (start, stop)))%nat
  ∧ reinstate_range spikes ((start, stop) :: rest) h
    = (Raise (ValueError "could not broadcast input array"), h ++ [xs]).
Proof.
  intros Hxs Hshape Hin.
  assert (0 < length (filter (fun x => x = start) xs))%nat as Hcount.
  { assert (start ∈ filter (fun x => x = start) xs) as Hf
      by by apply list_elem_of_filter.
    destruct (filter _ xs); [by apply elem_of_nil in Hf|cbn [length]; lia]. }
  assert (0 < length xs)%nat as Hpos.
  { destruct xs; [by apply elem_of_nil in Hin|cbn [length]; lia]. }
  pose proof (reinstate_1d_length xs (start, stop)) as Hlen. cbn [fst] in Hlen.
  split; [by apply list_elem_of_filter|].
  split; [by apply list_elem_of_filter|].
  split; [done|]. split; [lia|].
  rewrite (reinstate_range_1d_first h spikes xs) by done. cbn zeta.
  rewrite assign_row_mismatch by lia. done.
Qed.

(** *** Splicing out a range that holds no spike *)

Lemma filter_Forall_id (P : Z -> Prop) `{!∀ x, Decision (P x)} xs :
  Forall P xs -> filter P xs = xs.
Proof.
  induction 1 as [|x xs Hx _ IH]; [done|].
  by rewrite filter_cons_True, IH.
Qed.

Lemma filter_Forall_nil (P : Z -> Prop) `{!∀ x, Decision (P x)} xs :
  Forall (fun x => ¬ P x) xs -> filter P xs = [].
Proof.
  induction 1 as [|x xs Hx _ IH]; [done|].
  by rewrite filter_cons_False.
Qed.

(** A pointwise consequence of a [Forall], by arithmetic. *)
Local Ltac forall_lia H :=
  eapply Forall_impl; [|exact H]; intros ? ?; cbn beta in *; lia.

Lemma filter_Forall_ext (P Q : Z -> Prop)
    `{!∀ x, Decision (P x)} `{!∀ x, Decision (Q x)} xs :
  Forall (fun x => P x ↔ Q x) xs -> filter P xs = filter Q xs.
Proof.
  induction 1 as [|x xs Hx _ IH]; [done|].
  rewrite !filter_cons, IH.
  destruct (decide (P x)), (decide (Q x)); tauto.
Qed.

(** When no spike lies in [start, stop], the two segments of the splice
    are the spikes before [start] and the spikes after [stop]. *)
Lemma drop_splice_strict xs start stop :
  Forall (fun s => ¬ (start ≤ s ≤ stop)) xs ->
  start ≤ stop ->
  drop_splice xs (start, stop)
  = filter (fun x => x < start) xs
    ++ map (fun x => x - (stop - start)) (filter (fun x => stop < x) xs).
Proof.
  intros Hxs Hle. unfold drop_splice. cbn [fst snd].
  rewrite (filter_Forall_ext (fun x => x ≤ start) (fun x => x < start)),
    (filter_Forall_ext (fun x => stop ≤ x) (fun x => stop < x)); [done| |].
  - forall_lia Hxs.
  - forall_lia Hxs.
Qed.

Lemma strict_split_perm xs start stop :
  Forall (fun s => ¬ (start ≤ s ≤ stop)) xs ->
  start ≤ stop ->
  filter (fun x => x < start) xs ++ filter (fun x => stop < x) xs ≡ₚ xs.
Proof.
  intros Hxs Hle. induction Hxs as [|x xs Hx _ IH]; [done|].
  rewrite !filter_cons.
  destruct (decide (x < start)), (decide (stop < x)); try lia.
  - cbn [app]. by apply perm_skip.
  - rewrite <- Permutation_middle. by apply perm_skip.
Qed.

End store.

(** ** Nearest-time look-up *)

Section nearest_time.
Implicit Types (times ds : list Z) (timepoint tp : Z) (threshold : option Z).

(** The running best of [argmin_from] is a least element of what was
    scanned, and so is the element at the index returned. *)
Lemma argmin_from_least l : ∀ pre bi best,
  pre !! bi = Some best ->
  Forall (fun x => best ≤ x) pre ->
  ∃ m, (pre ++ l) !! argmin_from (length pre) bi best l = Some m
       ∧ Forall (fun x => m ≤ x) (pre ++ l).
Proof.
  induction l as [|x l IH]; intros pre bi best Hbi Hpre.
  - exists best. rewrite app_nil_r. done.
  - cbn [argmin_from].
    replace (pre ++ x :: l) with ((pre ++ [x]) ++ l) by by rewrite <- app_assoc.
    replace (S (length pre)) with (length (pre ++ [x]))
      by (rewrite length_app; cbn [length]; lia).
    destruct (Z.ltb_spec x best) as [Hlt|Hge].
    + apply IH.
      * by rewrite list_lookup_middle.
      * apply Forall_app. split; [|by constructor].
        eapply Forall_impl; [|exact Hpre]. intros y Hy. cbn beta in *. lia.
    + apply IH.
      * by apply lookup_app_l_Some.
      * apply Forall_app. split; [done|]. by constructor.
Qed.

Lemma argmin_least ds :
  ds ≠ [] ->
  ∃ k m, argmin ds = Ok k ∧ ds !! k = Some m ∧ Forall (fun x => m ≤ x) ds.
Proof.
  destruct ds as [|d ds]; [done|]. intros _.
  destruct (argmin_from_least ds [d] 0%nat d) as (m & Hm & Hleast);
    [done|by constructor|].
  by exists (argmin_from 1 0 d ds), m.
Qed.

(** [min_distance] is the distance to some sample, and no sample is
    nearer. *)
Lemma min_distance_least times tp d :
  min_distance times tp = Some d ->
  d ∈ map (fun t => Z.abs (t - tp)) times
  ∧ Forall (fun x => d ≤ x) (map (fun t => Z.abs (t - tp)) times).
Proof.
  destruct times as [|t times]; [done|]. cbn [min_distance map].
  intros [= <-]. induction times as [|t' times [IHin IHle]].
  - cbn [foldr map]. split; [by left|by repeat constructor].
  - cbn [foldr map].
    set (m := foldr (fun t'0 d => Z.abs (t'0 - tp) `min` d) (Z.abs (t - tp)) times) in *.
    apply Forall_cons_1 in IHle as [Hhd Htl]. split.
    + destruct (Z.min_spec (Z.abs (t' - tp)) m) as [[_ ->]|[_ ->]].
      * right. by left.
      * apply elem_of_cons in IHin as [->|Hin]; [by left|by do 2 right].
    + constructor; [lia|]. constructor; [lia|].
      eapply Forall_impl; [|exact Htl]. intros y Hy. cbn beta in *. lia.
Qed.

(** The index found by [argmin] holds a sample at the minimal
    distance. *)
Lemma argmin_nearest times tp :
  times ≠ [] ->
  ∃ k t, argmin (map (fun t => Z.abs (t - tp)) times) = Ok k
         ∧ times !! k = Some t
         ∧ min_distance times tp = Some (Z.abs (t - tp)).
Proof.
  intros Hne.
  destruct (argmin_least (map (fun t => Z.abs (t - tp)) times))
    as (k & m & Hk & Hm & Hleast); [by destruct times|].
  apply list_lookup_fmap_Some in Hm as (t & -> & Ht).
  exists k, t. split; [done|]. split; [done|].
  destruct (min_distance times tp) as [d|] eqn:Hd; [|by destruct times].
  apply min_distance_least in Hd as [Hin Hle]. f_equal.
  apply list_elem_of_fmap in Hin as (t' & -> & Ht').
  rewrite list.Forall_forall in Hle, Hleast.
  assert (Z.abs (t - tp) ≤ Z.abs (t' - tp)) by
    (apply Hleast; by apply (list_elem_of_fmap_2 (fun t => Z.abs (t - tp)))).
  assert (Z.abs (t' - tp) ≤ Z.abs (t - tp)) by
    (apply Hle; apply (list_elem_of_fmap_2 (fun t => Z.abs (t - tp)));
     by eapply list_elem_of_lookup_2).
  lia.
Qed.

(** What [get_ind_by_time] returns on a non-empty [times]. *)
Lemma get_ind_by_time_nearest times tp threshold :
  times ≠ [] ->
  ∃ k d, min_distance times tp = Some d
         ∧ (k < length times)%nat
         ∧ get_ind_by_time times tp threshold
           = Ok (if truthy threshold && (d >? default 0 threshold)
                 then -1 else Z.of_nat k).
Proof.
  intros Hne. destruct (argmin_nearest times tp Hne) as (k & t & Hk & Ht & Hd).
  exists k, (Z.abs (t - tp)). split; [done|].
  split; [by eapply lookup_lt_Some|].
  unfold get_ind_by_time. rewrite Hk. cbn [mbind result_bind].
  unfold getitem. rewrite Ht. cbn [mbind result_bind].
  by destruct (truthy threshold), (Z.abs (t - tp) >? default 0 threshold).
Qed.

Lemma get_ind_by_time_empty tp threshold :
  get_ind_by_time [] tp threshold
  = Raise (ValueError "attempt to get argmin of an empty sequence").
Proof. done. Qed.

(** A threshold other than zero does bound the distance: beyond it the
    index is [-1] and the value is [NaN]. *)
Lemma beyond_nonzero_threshold times vals tp t d :
  t ≠ 0 ->
  min_distance times tp = Some d ->
  t < d ->
  get_ind_by_time times tp (Some t) = Ok (-1)
  ∧ get_value_by_time times vals tp (Some t) = Ok (Arr0 NaN).
Proof.
  intros Ht Hd Hlt.
  assert (get_ind_by_time times tp (Some t) = Ok (-1)) as Hind.
  { destruct (get_ind_by_time_nearest times tp (Some t)) as (k & d' & Hd' & _ & ->).
    { by destruct times. }
    rewrite Hd in Hd'. injection Hd' as <-. cbn [truthy default id].
    apply Z.eqb_neq in Ht. rewrite Ht. cbn [negb andb].
    by destruct (Z.gtb_spec d t); [|lia]. }
  split; [done|]. unfold get_value_by_time. by rewrite Hind.
Qed.

(** A threshold of zero is falsy: it is not looked at. *)
Lemma zero_threshold_ignored times vals tp :
  get_ind_by_time times tp (Some 0) = get_ind_by_time times tp None
  ∧ get_value_by_time times vals tp (Some 0) = get_value_by_time times vals tp None.
Proof. done. Qed.

(** C2. The code at threshold [0]: the nearest sample of [[1; 2; 3]] to
    the time point [5] is at distance [2], beyond the threshold, yet
    [get_ind_by_time] returns the index [2] and not [-1], and
    [get_value_by_time] returns the value there and not [NaN]. *)
Theorem zero_threshold_no_null :
  min_distance [1; 2; 3] 5 = Some 2
  ∧ get_ind_by_time [1; 2; 3] 5 (Some 0) = Ok 2
  ∧ get_value_by_time [1; 2; 3] (Vals1 [10; 20; 30]) 5 (Some 0) = Ok (Arr0 (Fin 30)).
Proof. by vm_compute. Qed.

End nearest_time.

(** ** Values at time points: one query *)

Section single_query.
Implicit Types (times : list Z) (vals : values) (tp : Z) (threshold : option Z).

(** A query that matches gets an index that is not the sentinel. *)
Lemma get_ind_by_time_match times tp threshold i :
  within_threshold times tp threshold ->
  get_ind_by_time times tp threshold = Ok i ->
  0 ≤ i.
Proof.
  intros Hwithin Hind. destruct times as [|t times]; [done|].
  destruct (get_ind_by_time_nearest (t :: times) tp threshold) as (k & d & Hd & _ & Hrun);
    [done|].
  rewrite Hrun in Hind. injection Hind as <-.
  destruct threshold as [th|]; cbn [truthy default id andb]; [|lia].
  specialize (Hwithin d Hd).
  destruct (Z.gtb_spec d th); [lia|]. rewrite andb_false_r. lia.
Qed.

(** The batched look-up of one time point, in terms of the scalar
    one. *)
Lemma get_inds_by_times_single times tp threshold drop_null :
  get_inds_by_times times [tp] threshold drop_null
  = i ← get_ind_by_time times tp threshold;
    if drop_null then Ok (filter (fun i => 0 ≤ i) [i]) else Ok [i].
Proof.
  unfold get_inds_by_times. cbn [length replicate get_inds_loop].
  by destruct (get_ind_by_time times tp threshold).
Qed.

Lemma get_values_by_times_single times vals tp threshold :
  within_threshold times tp threshold ->
  get_values_by_times times vals [tp] threshold true
  = i ← get_ind_by_time times tp threshold; take_array vals [i].
Proof.
  intros Hwithin. unfold get_values_by_times. rewrite get_inds_by_times_single.
  destruct (get_ind_by_time times tp threshold) as [i|e] eqn:Hind; [|done].
  cbn [mbind result_bind].
  by rewrite filter_cons_True, filter_nil by by eapply get_ind_by_time_match.
Qed.

Lemma get_value_by_time_match times vals tp threshold :
  within_threshold times tp threshold ->
  get_value_by_time times vals tp threshold
  = i ← get_ind_by_time times tp threshold; take_scalar vals i.
Proof.
  intros Hwithin. unfold get_value_by_time.
  destruct (get_ind_by_time times tp threshold) as [i|e] eqn:Hind; [|done].
  cbn [mbind result_bind].
  destruct (Z.leb_spec 0 i) as [_|Hneg]; [done|].
  apply (get_ind_by_time_match _ _ _ _ Hwithin) in Hind. lia.
Qed.

(** C5 (amended). For a time point that matches (no threshold, or the
    nearest sample within it), the batched resolver on the single query
    agrees with the scalar resolver along the last axis: for 1d values
    [get_values_by_times(times, values, [tp])[0]] is
    [get_value_by_time(times, values, tp)], and for 2d values the column
    [get_values_by_times(times, values, [tp])[:, 0]] is. *)
Theorem batch_scalar_last_axis times vals tp threshold :
  within_threshold times tp threshold ->
  match vals with
  | Vals1 _ =>
      get_values_by_times times vals [tp] threshold true ≫= getitem0
      = get_value_by_time times vals tp threshold
  | Vals2 _ _ =>
      get_values_by_times times vals [tp] threshold true ≫= getcol0
      = get_value_by_time times vals tp threshold
  end.
Proof.
  intros Hwithin.
  pose proof (get_values_by_times_single times vals tp threshold Hwithin) as Hbatch.
  pose proof (get_value_by_time_match times vals tp threshold Hwithin) as Hscalar.
  destruct vals as [v|ncols rows]; rewrite Hbatch, Hscalar;
    destruct (get_ind_by_time times tp threshold) as [i|e]; try done;
    cbn [mbind result_bind take_array take_scalar take_indices].
  - by destruct (take_index (length v) i).
  - destruct (take_index ncols i) as [p|e]; [|done].
    cbn [mbind result_bind length getcol0]. do 2 f_equal.
    rewrite map_map. by apply map_ext.
Qed.

End single_query.

(** ** Epoching spikes by events *)

Section epoching.
Implicit Types (spikes events : list Z) (window : Z * Z) (trials : list trial_slot).

Lemma epoch_spikes_loop_spec spikes window events : ∀ ind trials,
  (ind + length events ≤ length trials)%nat ->
  epoch_spikes_loop spikes window ind events trials
  = take ind trials
    ++ map (fun event => Some (trial_of spikes window event)) events
    ++ drop (ind + length events) trials.
Proof.
  induction events as [|event rest IH]; intros ind trials Hlen.
  - cbn [epoch_spikes_loop map length app]. by rewrite Nat.add_0_r, take_drop.
  - cbn [epoch_spikes_loop map length] in *.
    unfold restrict_range. rewrite get_range_between.
    fold (trial_of spikes window event).
    rewrite IH by (rewrite length_insert; lia).
    rewrite (take_S_r _ _ (Some (trial_of spikes window event)))
      by (apply list_lookup_insert_eq; lia).
    rewrite take_insert_ge, drop_insert_lt by lia.
    replace (S ind + length rest)%nat with (ind + S (length rest))%nat by lia.
    by rewrite <- app_assoc.
Qed.

Lemma epoch_spikes_by_event_map spikes events window :
  epoch_spikes_by_event spikes events window
  = map (fun event => Some (trial_of spikes window event)) events.
Proof.
  unfold epoch_spikes_by_event.
  rewrite epoch_spikes_loop_spec by by rewrite length_replicate.
  rewrite take_0, drop_ge, app_nil_r by by rewrite length_replicate.
  done.
Qed.

(** C4. [epoch_spikes_by_event] returns one trial per event, in the
    order of the events: trial [i] holds exactly the spikes [s] with
    [events[i] + window[0] <= s <= events[i] + window[1]], in their
    order in [spikes], each less [events[i]]; nothing is assumed on the
    order of spikes or events, and an event with no spike in its window
    gets the empty trial. *)
Theorem epoch_spikes_by_event_trials spikes events window :
  length (epoch_spikes_by_event spikes events window) = length events
  ∧ (∀ i event, events !! i = Some event ->
       epoch_spikes_by_event spikes events window !! i
       = Some (Some (map (fun s => s - event)
                       (filter (fun s => event + window.1 ≤ s ≤ event + window.2) spikes)))
       ∧ (∀ x, x ∈ trial_of spikes window event
               ↔ ∃ s, s ∈ spikes ∧ event + window.1 ≤ s ≤ event + window.2
                      ∧ x = s - event)
       ∧ (Forall (fun s => ¬ (event + window.1 ≤ s ≤ event + window.2)) spikes ->
          epoch_spikes_by_event spikes events window !! i = Some (Some []))).
Proof.
  rewrite epoch_spikes_by_event_map. split; [by rewrite length_map|].
  intros i event Hi.
  assert (map (fun event => Some (trial_of spikes window event)) events !! i
          = Some (Some (trial_of spikes window event))) as Hlook.
  { change (((fun event => Some (trial_of spikes window event)) <$> events) !! i
            = Some (Some (trial_of spikes window event))).
    by rewrite list_lookup_fmap, Hi. }
  split; [done|]. split.
  - intros x. unfold trial_of. rewrite list_elem_of_fmap. split.
    + intros (s & -> & Hs). apply list_elem_of_filter in Hs as [Hwin Hs]. by exists s.
    + intros (s & Hs & Hwin & ->). exists s. split; [done|].
      by apply list_elem_of_filter.
  - intros Hnone. rewrite Hlook. unfold trial_of.
    by rewrite (filter_Forall_nil (fun s => event + window.1 ≤ s ≤ event + window.2)).
Qed.

End epoching.

(** ** Binomial spike trains *)

Section binomial.
Variable np_random_binomial : binomial_t.

(** C8. With a float [p_spiking] and no [n_samples],
    [sim_spiketrain_binom] raises the [ValueError] on [n_samples]; with
    [n_samples] given, or with an array [p_spiking], it does not: it
    returns what the call [np.random.binomial(1, p=p_spiking,
    size=n_samples)] returns. *)
Theorem sim_spiketrain_binom_validation :
  (∀ p, sim_spiketrain_binom np_random_binomial (PFloat p) None
        = Raise (ValueError n_samples_msg))
  ∧ (∀ p n, sim_spiketrain_binom np_random_binomial (PFloat p) (Some n)
            = np_random_binomial 1 (PFloat p) (Some n))
  ∧ (∀ ps n_samples, sim_spiketrain_binom np_random_binomial (PArray ps) n_samples
                     = np_random_binomial 1 (PArray ps) n_samples).
Proof. done. Qed.

End binomial.

(** * Further properties of the code *)

(** ** Range selection, continued *)

Section range_selection_more.
Implicit Types (data times : list Z) (x a b r : Z) (min_value max_value : option Z).



(** X3. Two closed range selections in a row select the intersection of
    the two ranges. *)
Theorem get_range_nested data a b a' b' :
  get_range (get_range data (Some a) (Some b) None) (Some a') (Some b') None
  = get_range data (Some (Z.max a a')) (Some (Z.min b b')) None.
Proof.
  rewrite !get_range_between, list_filter_filter.
  apply list_filter_iff. intros x. lia.
Qed.

Lemma index_mask_zip (f : Z -> bool) : ∀ times data,
  length times = length data ->
  index_mask times (map f data) = (filter (fun p => f p.2) (zip times data)).*1
  ∧ index_mask data (map f data) = (filter (fun p => f p.2) (zip times data)).*2.
Proof.
  induction times as [|t times IH]; intros [|x data] Hlen; try done.
  injection Hlen as Hlen. destruct (IH data Hlen) as [IHt IHd].
  cbn [map index_mask zip zip_with]. rewrite filter_cons. cbn [snd].
  destruct (f x); cbn [decide Is_true_dec fmap list_fmap fst snd].
  - rewrite decide_True by done. cbn. by rewrite IHt, IHd.
  - rewrite decide_False by (by intros []). done.
Qed.

(** X4. [get_value_range] selects times and data in parallel by the
    value of the data: for arrays of one length it returns the pairs
    whose value is within the bounds, in their order, the times less the
    reset value and the data as they are; for arrays of different lengths
    it raises an [IndexError]. *)
Theorem get_value_range_parallel times data min_value max_value reset :
  (length times = length data ->
   let kept := filter (fun p => in_bounds min_value max_value p.2) (zip times data) in
   get_value_range times data min_value max_value reset
   = Ok (map (fun p => p.1 - default 0 reset) kept, kept.*2))
  ∧ (length times ≠ length data ->
     get_value_range times data min_value max_value reset = Raise IndexError).
Proof.
  unfold get_value_range, index_mask_checked, create_mask. rewrite length_map. split.
  - intros Hlen. cbn zeta. rewrite <- Hlen, Nat.eqb_refl. cbn [mbind result_bind].
    destruct (index_mask_zip (fun x => ge_min min_value x && le_max max_value x)
                times data Hlen) as [-> ->].
    change (filter _ (zip times data))
      with (filter (fun p => in_bounds min_value max_value p.2) (zip times data)).
    set (kept := filter _ (zip times data)).
    destruct reset as [r|]; cbn [truthy default id].
    + destruct (Z.eqb_spec r 0) as [->|_]; cbn [negb].
      * do 2 f_equal. apply list_fmap_ext. intros _ p _. cbn. lia.
      * do 2 f_equal. symmetry. apply (list_fmap_compose fst (fun x => x - r)).
    + do 2 f_equal. apply list_fmap_ext. intros _ p _. cbn. lia.
  - intros Hlen. apply not_eq_sym, Nat.eqb_neq in Hlen. by rewrite Hlen.
Qed.

End range_selection_more.

(** ** Nearest-time look-up, continued *)

Section nearest_time_more.
Implicit Types (times tps ds : list Z) (tp : Z) (threshold : option Z).

(** [argmin_from] returns the first index that holds the least
    element. *)
Lemma argmin_from_first l : ∀ pre bi best,
  pre !! bi = Some best ->
  Forall (fun x => best ≤ x) pre ->
  (∀ j y, (j < bi)%nat -> pre !! j = Some y -> best < y) ->
  ∃ m, (pre ++ l) !! argmin_from (length pre) bi best l = Some m
       ∧ Forall (fun x => m ≤ x) (pre ++ l)
       ∧ ∀ j y, (j < argmin_from (length pre) bi best l)%nat ->
                (pre ++ l) !! j = Some y -> m < y.
Proof.
  induction l as [|x l IH]; intros pre bi best Hbi Hpre Hfirst.
  - exists best. rewrite app_nil_r. done.
  - cbn [argmin_from].
    replace (pre ++ x :: l) with ((pre ++ [x]) ++ l) by by rewrite <- app_assoc.
    replace (S (length pre)) with (length (pre ++ [x]))
      by (rewrite length_app; cbn [length]; lia).
    destruct (Z.ltb_spec x best) as [Hlt|Hge].
    + apply IH.
      * by rewrite list_lookup_middle.
      * apply Forall_app. split; [|by constructor].
        eapply Forall_impl; [|exact Hpre]. intros y Hy. cbn beta in *. lia.
      * intros j y Hj Hy. rewrite lookup_app_l in Hy by done.
        rewrite list.Forall_forall in Hpre.
        assert (best ≤ y) by (apply Hpre; by eapply list_elem_of_lookup_2). lia.
    + apply IH.
      * by apply lookup_app_l_Some.
      * apply Forall_app. split; [done|]. by constructor.
      * intros j y Hj Hy. apply (Hfirst j y Hj).
        apply lookup_lt_Some in Hbi. by rewrite lookup_app_l in Hy by lia.
Qed.

(** What [get_ind_by_time] returns on a non-empty [times], with the
    sample it has found. *)
Lemma get_ind_by_time_first times tp threshold :
  times ≠ [] ->
  ∃ k t, times !! k = Some t
         ∧ min_distance times tp = Some (Z.abs (t - tp))
         ∧ (∀ j t', (j < k)%nat -> times !! j = Some t' ->
                    Z.abs (t - tp) < Z.abs (t' - tp))
         ∧ get_ind_by_time times tp threshold
           = Ok (if truthy threshold && (Z.abs (t - tp) >? default 0 threshold)
                 then -1 else Z.of_nat k).
Proof.
  intros Hne. destruct times as [|t0 times]; [done|].
  destruct (argmin_from_first (map (fun t => Z.abs (t - tp)) times)
              [Z.abs (t0 - tp)] 0%nat (Z.abs (t0 - tp)))
    as (m & Hm & Hleast & Hfirst); [done|by constructor|intros; lia|].
  cbn [length app] in *.
  set (k := argmin_from 1 0 (Z.abs (t0 - tp)) (map (fun t => Z.abs (t - tp)) times)) in *.
  change (Z.abs (t0 - tp) :: map (fun t => Z.abs (t - tp)) times)
    with ((fun t => Z.abs (t - tp)) <$> (t0 :: times)) in *.
  apply list_lookup_fmap_Some in Hm as (t & -> & Ht).
  exists k, t. split; [done|].
  assert (min_distance (t0 :: times) tp = Some (Z.abs (t - tp))) as Hd.
  { destruct (min_distance (t0 :: times) tp) as [d|] eqn:Hd; [|done].
    apply min_distance_least in Hd as [Hin Hle]. f_equal.
    apply list_elem_of_fmap in Hin as (t' & -> & Ht').
    rewrite list.Forall_forall in Hle, Hleast.
    assert (Z.abs (t - tp) ≤ Z.abs (t' - tp)) by
      (apply Hleast; by apply (list_elem_of_fmap_2 (fun t => Z.abs (t - tp)))).
    assert (Z.abs (t' - tp) ≤ Z.abs (t - tp)) by
      (apply Hle; apply (list_elem_of_fmap_2 (fun t => Z.abs (t - tp)));
       by eapply list_elem_of_lookup_2).
    lia. }
  split; [done|]. split.
  - intros j t' Hj Ht'. apply (Hfirst j); [done|].
    by rewrite list_lookup_fmap, Ht'.
  - unfold get_ind_by_time. cbn [map argmin mbind result_bind]. fold k.
    unfold getitem. rewrite Ht. cbn [mbind result_bind].
    by destruct (truthy threshold), (Z.abs (t - tp) >? default 0 threshold).
Qed.

(** X5. Without a threshold, on a non-empty [times], [get_ind_by_time]
    returns the index of a sample nearest to the time point, and of the
    first one among those at the same distance. *)
Theorem get_ind_by_time_nearest_first times tp :
  times ≠ [] ->
  ∃ k t, get_ind_by_time times tp None = Ok (Z.of_nat k)
         ∧ times !! k = Some t
         ∧ Forall (fun t' => Z.abs (t - tp) ≤ Z.abs (t' - tp)) times
         ∧ Forall (fun t' => Z.abs (t - tp) < Z.abs (t' - tp)) (take k times).
Proof.
  intros Hne.
  destruct (get_ind_by_time_first times tp None Hne) as (k & t & Ht & Hd & Hfirst & Hrun).
  exists k, t. split; [done|]. split; [done|]. split.
  - apply min_distance_least in Hd as [_ Hle].
    rewrite list.Forall_forall in Hle. apply list.Forall_forall. intros t' Ht'.
    apply Hle. by apply (list_elem_of_fmap_2 (fun t => Z.abs (t - tp))).
  - apply Forall_lookup. intros j t' Hj.
    apply lookup_take_Some in Hj as [Hj Hlt]. by apply (Hfirst j).
Qed.

(** X6. A time point that is one of the samples is found exactly, at its
    first occurrence, with no threshold or with any threshold that is not
    negative. *)
Theorem get_ind_by_time_member times tp threshold :
  tp ∈ times ->
  (∀ th, threshold = Some th -> 0 ≤ th) ->
  ∃ k, get_ind_by_time times tp threshold = Ok (Z.of_nat k)
       ∧ times !! k = Some tp
       ∧ Forall (fun t' => t' ≠ tp) (take k times).
Proof.
  intros Hin Hth.
  destruct (get_ind_by_time_first times tp threshold) as (k & t & Ht & Hd & Hfirst & Hrun).
  { intros ->. by apply elem_of_nil in Hin. }
  assert (t = tp) as ->.
  { apply min_distance_least in Hd as [_ Hle]. rewrite list.Forall_forall in Hle.
    assert (Z.abs (t - tp) ≤ Z.abs (tp - tp))
      by (apply Hle; by apply (list_elem_of_fmap_2 (fun t => Z.abs (t - tp)))).
    lia. }
  exists k. split; [|split; [done|]].
  - rewrite Hrun. destruct threshold as [th|]; cbn [truthy default id andb]; [|done].
    specialize (Hth th eq_refl).
    destruct (Z.gtb_spec (Z.abs (tp - tp)) th); [lia|]. by rewrite andb_false_r.
  - apply Forall_lookup. intros j t' Hj.
    apply lookup_take_Some in Hj as [Hj Hlt].
    specialize (Hfirst j t' Hlt Hj). intros ->. lia.
Qed.

(** X7. On a non-empty [times] the result of [get_ind_by_time] is an
    index into [times] or the sentinel [-1], and it is the sentinel
    exactly when there is a threshold other than zero and the nearest
    sample is farther than it. *)
Theorem get_ind_by_time_sentinel times tp threshold d :
  min_distance times tp = Some d ->
  ∃ i, get_ind_by_time times tp threshold = Ok i
       ∧ -1 ≤ i < Z.of_nat (length times)
       ∧ (i = -1 ↔ ∃ th, threshold = Some th ∧ th ≠ 0 ∧ th < d).
Proof.
  intros Hd.
  destruct (get_ind_by_time_first times tp threshold) as (k & t & Ht & Hd' & _ & Hrun).
  { by destruct times. }
  rewrite Hd in Hd'. injection Hd' as ->.
  apply lookup_lt_Some in Ht. eexists. split; [exact Hrun|].
  destruct threshold as [th|]; cbn [truthy default id andb].
  - destruct (Z.eqb_spec th 0) as [->|Hth]; cbn [negb andb].
    + split; [lia|]. split; [lia|]. by intros (th & [= <-] & ? & _).
    + destruct (Z.gtb_spec (Z.abs (t - tp)) th) as [Hgt|Hle].
      * split; [lia|]. split; [|done]. intros _. exists th. by repeat split; try lia.
      * split; [lia|]. split; [lia|]. intros (th' & [= <-] & _ & ?). lia.
  - split; [lia|]. split; [lia|]. by intros (th & [=] & _).
Qed.

End nearest_time_more.

(** ** Batched look-ups *)

Section batched.
Implicit Types (times tps inds : list Z) (v : list Z) (tp : Z) (threshold : option Z).

(** The loop of [get_inds_by_times] writes, at the positions of the
    queries, what [get_ind_by_time] returns for them. *)
Lemma get_inds_loop_spec times threshold tps :
  times ≠ [] ->
  ∃ res, Forall2 (fun tp i => get_ind_by_time times tp threshold = Ok i) tps res
         ∧ ∀ ind inds, (ind + length tps ≤ length inds)%nat ->
             get_inds_loop times threshold ind tps inds
             = Ok (take ind inds ++ res ++ drop (ind + length tps) inds).
Proof.
  intros Hne. induction tps as [|tp tps (res & Hres & IH)].
  - exists []. split; [constructor|]. intros ind inds _.
    cbn [get_inds_loop length app]. by rewrite Nat.add_0_r, take_drop.
  - destruct (get_ind_by_time_first times tp threshold Hne) as (k & t & _ & _ & _ & Hrun).
    set (i := if truthy threshold && _ then _ else _) in Hrun.
    exists (i :: res). split; [constructor; [exact Hrun|exact Hres]|].
    intros ind inds Hlen. cbn [get_inds_loop length] in *.
    rewrite Hrun. cbn [mbind result_bind].
    rewrite IH by (rewrite length_insert; lia).
    rewrite (take_S_r _ _ i) by (apply list_lookup_insert_eq; lia).
    rewrite take_insert_ge, drop_insert_lt by lia.
    replace (S ind + length tps)%nat with (ind + S (length tps))%nat by lia.
    by rewrite <- app_assoc.
Qed.

Lemma get_inds_by_times_run times tps threshold drop_null :
  times ≠ [] ->
  ∃ inds, Forall2 (fun tp i => get_ind_by_time times tp threshold = Ok i) tps inds
          ∧ get_inds_by_times times tps threshold drop_null
            = Ok (if drop_null then filter (fun i => 0 ≤ i) inds else inds).
Proof.
  intros Hne. destruct (get_inds_loop_spec times threshold tps Hne) as (res & Hres & Hloop).
  exists res. split; [done|]. unfold get_inds_by_times.
  rewrite Hloop by by rewrite length_replicate.
  rewrite take_0, drop_ge, app_nil_r by by rewrite length_replicate.
  cbn [app mbind result_bind]. by destruct drop_null.
Qed.

(** X8. On a non-empty [times], [get_inds_by_times] returns, in the
    order of the queries, what [get_ind_by_time] returns for each of
    them; with [drop_null] the sentinels are left out and the other
    indices keep their order. *)
Theorem get_inds_by_times_per_query times tps threshold :
  times ≠ [] ->
  ∃ inds, Forall2 (fun tp i => get_ind_by_time times tp threshold = Ok i) tps inds
          ∧ get_inds_by_times times tps threshold false = Ok inds
          ∧ get_inds_by_times times tps threshold true = Ok (filter (fun i => 0 ≤ i) inds).
Proof.
  intros Hne.
  destruct (get_inds_by_times_run times tps threshold false Hne) as (inds & Hinds & Hkeep).
  destruct (get_inds_by_times_run times tps threshold true Hne) as (inds' & Hinds' & Hdrop).
  assert (inds' = inds) as ->.
  { clear Hkeep Hdrop. revert inds' Hinds'.
    induction Hinds as [|tp i tps inds Hi _ IH]; intros inds' Hinds'.
    - by apply Forall2_nil_inv_l in Hinds'.
    - apply Forall2_cons_inv_l in Hinds' as (i' & inds'' & Hi' & Hrest & ->).
      rewrite Hi in Hi'. injection Hi' as <-. f_equal. by apply IH. }
  by exists inds.
Qed.

(** X9. On an empty [times] there is no nearest sample:
    [get_inds_by_times] raises the [ValueError] of [argmin] as soon as
    there is a query, and returns the empty array when there is none. *)
Theorem get_inds_by_times_empty_times tps threshold drop_null :
  get_inds_by_times [] tps threshold drop_null
  = match tps with
    | [] => Ok []
    | _ :: _ => Raise (ValueError "attempt to get argmin of an empty sequence")
    end.
Proof. destruct tps; [by destruct drop_null|done]. Qed.

(** Every index found is the sentinel or an index into [times]. *)
Lemma found_inds_in_range times tps threshold inds :
  Forall2 (fun tp i => get_ind_by_time times tp threshold = Ok i) tps inds ->
  Forall (fun i => -1 ≤ i < Z.of_nat (length times)) inds.
Proof.
  induction 1 as [|tp i tps inds Hi _ IH]; constructor; [|done].
  destruct times as [|t0 times]; [done|].
  destruct (get_ind_by_time_first (t0 :: times) tp threshold) as (k & t & Ht & _ & _ & Hrun);
    [done|].
  rewrite Hi in Hrun. injection Hrun as ->. apply lookup_lt_Some in Ht.
  destruct (truthy threshold && _); lia.
Qed.

(** X10. Without a threshold nothing is dropped: on a non-empty [times],
    [get_inds_by_times] returns one index into [times] for each query,
    whatever [drop_null] is. *)
Theorem get_inds_by_times_no_threshold times tps drop_null :
  times ≠ [] ->
  ∃ inds, get_inds_by_times times tps None drop_null = Ok inds
          ∧ length inds = length tps
          ∧ Forall (fun i => 0 ≤ i < Z.of_nat (length times)) inds.
Proof.
  intros Hne.
  destruct (get_inds_by_times_run times tps None drop_null Hne) as (inds & Hinds & Hrun).
  assert (Forall (fun i => 0 ≤ i < Z.of_nat (length times)) inds) as Hrange.
  { clear Hrun. induction Hinds as [|tp i tps inds Hi _ IH]; constructor; [|done].
    destruct (get_ind_by_time_first times tp None Hne) as (k & t & Ht & _ & _ & Hrun).
    rewrite Hi in Hrun. cbn [truthy andb] in Hrun. injection Hrun as ->.
    apply lookup_lt_Some in Ht. lia. }
  exists inds. split; [|split; [by apply Forall2_length in Hinds|done]].
  rewrite Hrun. destruct drop_null; [|done]. f_equal.
  apply filter_Forall_id. eapply Forall_impl; [|exact Hrange].
  intros i Hi. cbn beta in *. lia.
Qed.

End batched.

(** ** Values at several time points *)

Section values_more.
Implicit Types (times tps inds v : list Z) (tp : Z) (threshold : option Z).

Lemma take_index_in_range n i :
  0 ≤ i < Z.of_nat n -> take_index n i = Ok (Z.to_nat i).
Proof.
  intros Hi. unfold take_index.
  destruct (Z.leb_spec 0 i); [|lia]. destruct (Z.ltb_spec i (Z.of_nat n)); [done|lia].
Qed.

Lemma take_index_beyond n i :
  Z.of_nat n ≤ i -> take_index n i = Raise IndexError.
Proof.
  intros Hi. unfold take_index.
  destruct (Z.leb_spec 0 i); [|lia]. destruct (Z.ltb_spec i (Z.of_nat n)); [lia|].
  cbn [andb]. destruct (Z.ltb_spec i 0); [lia|]. by rewrite andb_false_r.
Qed.

Lemma take_indices_in_range n inds :
  Forall (fun i => 0 ≤ i < Z.of_nat n) inds ->
  take_indices n inds = Ok (Z.to_nat <$> inds).
Proof.
  induction 1 as [|i inds Hi _ IH]; [done|].
  cbn [take_indices]. rewrite take_index_in_range, IH by done. done.
Qed.

(** The row that [outputs[:, cols] = taken] leaves: the taken values at
    the positions of the matches, [NaN] elsewhere. *)
Lemma fill_row_filter (f : Z -> num) inds :
  fill_row inds (f <$> filter (fun i => 0 ≤ i) inds)
  = (fun i => if decide (0 ≤ i) then f i else NaN) <$> inds.
Proof.
  induction inds as [|i inds IH]; [done|].
  rewrite filter_cons. cbn [fill_row fmap list_fmap].
  destruct (decide (0 ≤ i)) as [Hi|Hi].
  - destruct (Z.leb_spec 0 i); [|lia]. cbn [fmap list_fmap]. f_equal. exact IH.
  - destruct (Z.leb_spec 0 i); [lia|]. f_equal. exact IH.
Qed.

Lemma matched_inds_in_range times tps threshold inds n :
  (length times ≤ n)%nat ->
  Forall2 (fun tp i => get_ind_by_time times tp threshold = Ok i) tps inds ->
  Forall (fun i => 0 ≤ i < Z.of_nat n) (filter (fun i => 0 ≤ i) inds).
Proof.
  intros Hlen Hinds. apply found_inds_in_range in Hinds.
  apply list.Forall_forall. intros i Hi. apply list_elem_of_filter in Hi as [Hpos Hi].
  rewrite list.Forall_forall in Hinds. specialize (Hinds i Hi). lia.
Qed.

(** X11. For 1d values that cover [times], [get_values_by_times] (with
    [drop_null], the default) returns the values at the indices that
    [get_ind_by_time] finds for the queries, in the order of the queries,
    without the queries that have no match. *)
Theorem get_values_by_times_1d times v tps threshold :
  times ≠ [] ->
  (length times ≤ length v)%nat ->
  ∃ inds, Forall2 (fun tp i => get_ind_by_time times tp threshold = Ok i) tps inds
          ∧ get_values_by_times times (Vals1 v) tps threshold true
            = Ok (Arr1 ((fun i => at_pos v (Z.to_nat i)) <$> filter (fun i => 0 ≤ i) inds)).
Proof.
  intros Hne Hlen.
  destruct (get_inds_by_times_run times tps threshold true Hne) as (inds & Hinds & Hrun).
  exists inds. split; [done|].
  unfold get_values_by_times. rewrite Hrun. cbn [mbind result_bind take_array].
  rewrite take_indices_in_range by by eapply matched_inds_in_range.
  cbn [mbind result_bind]. apply (f_equal (fun l => Ok (Arr1 l))).
  symmetry. apply (list_fmap_compose Z.to_nat (at_pos v)).
Qed.

(** X12. With [drop_null=False] and 1d values that cover [times], the
    result is aligned with the queries: position [j] holds the value at
    the index found for query [j], or [NaN] when that query has no match.
    It is a 1d array, except for a single query, where the final
    [np.squeeze] returns a scalar. *)
Theorem get_values_by_times_keep_null times v tps threshold :
  times ≠ [] ->
  (length times ≤ length v)%nat ->
  ∃ inds, Forall2 (fun tp i => get_ind_by_time times tp threshold = Ok i) tps inds
          ∧ let row := (fun i => if decide (0 ≤ i) then at_pos v (Z.to_nat i) else NaN)
                       <$> inds in
            get_values_by_times times (Vals1 v) tps threshold false
            = Ok (if decide (length tps = 1%nat) then Arr0 (default NaN (head row))
                  else Arr1 row).
Proof.
  intros Hne Hlen.
  destruct (get_inds_by_times_run times tps threshold false Hne) as (inds & Hinds & Hrun).
  exists inds. split; [done|]. cbn zeta.
  unfold get_values_by_times. rewrite Hrun. cbn [mbind result_bind take_array].
  rewrite take_indices_in_range by by eapply matched_inds_in_range.
  cbn [mbind result_bind nrows_2d seq map taken_row].
  rewrite <- list_fmap_compose.
  change (at_pos v ∘ Z.to_nat) with (fun i => at_pos v (Z.to_nat i)).
  rewrite fill_row_filter. unfold squeeze_2d.
  destruct (decide (length tps = 1%nat)) as [->|Hlen1]; [done|].
  apply Nat.eqb_neq in Hlen1. by rewrite Hlen1.
Qed.

(** The positions selected by a mask over [times], read in values
    aligned with [times]. *)
Lemma where_take_zip (f : Z -> bool) : ∀ times pre vs,
  length times = length vs ->
  ∃ ps, take_indices (length (pre ++ vs)) (where_from (length pre) (map f times)) = Ok ps
        ∧ map (at_pos (pre ++ vs)) ps = Fin <$> (filter (fun p => f p.1) (zip times vs)).*2
        ∧ index_mask times (map f times) = (filter (fun p => f p.1) (zip times vs)).*1.
Proof.
  induction times as [|t times IH]; intros pre [|x vs] Hlen; try done.
  { by exists []. }
  injection Hlen as Hlen.
  destruct (IH (pre ++ [x]) vs Hlen) as (ps & Hps & Hvals & Htimes).
  rewrite <- app_assoc in Hps, Hvals. cbn [app] in Hps, Hvals.
  replace (length (pre ++ [x])) with (S (length pre)) in Hps
    by (rewrite length_app; cbn [length]; lia).
  cbn [map where_from index_mask zip zip_with]. rewrite filter_cons. cbn [fst].
  destruct (f t).
  - rewrite decide_True by done. exists (length pre :: ps).
    cbn [take_indices]. rewrite take_index_in_range, Nat2Z.id, Hps;
      [|rewrite length_app; cbn [length]; lia].
    split; [done|]. cbn [map fmap list_fmap fst snd]. split; [|by rewrite Htimes].
    f_equal; [|exact Hvals].
    unfold at_pos. by rewrite list_lookup_middle.
  - rewrite decide_False by (by intros []). by exists ps.
Qed.

(** X13. For 1d values of the length of [times],
    [get_values_by_time_range] returns the times within
    [[t_min, t_max]] and the values recorded at those times, pair by
    pair in their order. *)
Theorem get_values_by_time_range_pairs times v t_min t_max :
  length times = length v ->
  let kept := filter (fun p => t_min ≤ p.1 ≤ t_max) (zip times v) in
  get_values_by_time_range times (Vals1 v) t_min t_max = Ok (kept.*1, Arr1 (Fin <$> kept.*2)).
Proof.
  intros Hlen. cbn zeta. unfold get_values_by_time_range. cbn [take_array].
  destruct (where_take_zip (fun t => (t_min <=? t) && (t <=? t_max)) times [] v Hlen)
    as (ps & Hps & Hvals & Htimes).
  cbn [app length] in Hps, Hvals. rewrite Hps. cbn [mbind result_bind].
  rewrite Htimes, Hvals.
  assert (filter (fun p : Z * Z => (t_min <=? p.1) && (p.1 <=? t_max)) (zip times v)
          = filter (fun p => t_min ≤ p.1 ≤ t_max) (zip times v)) as ->; [|done].
  apply list_filter_iff. intros p.
  rewrite andb_True, !Is_true_true, !Z.leb_le. done.
Qed.

End values_more.

(** ** Thresholding spikes by times *)

Section threshold_by_times.
Implicit Types (spikes times : list Z) (threshold : Z).

(** The nearest sample is within the threshold exactly when some sample
    is. *)
Lemma min_distance_lt times spike threshold d :
  min_distance times spike = Some d ->
  d < threshold ↔ Exists (fun t => Z.abs (t - spike) < threshold) times.
Proof.
  intros Hd. apply min_distance_least in Hd as [Hin Hle].
  apply list_elem_of_fmap in Hin as (t & -> & Ht).
  rewrite list.Forall_forall in Hle. rewrite Exists_exists. split.
  - intros Hlt. exists t. split; [by apply list_elem_of_In|done].
  - intros (t' & Ht' & Hlt). apply list_elem_of_In in Ht'.
    assert (Z.abs (t - spike) ≤ Z.abs (t' - spike))
      by (apply Hle; by apply (list_elem_of_fmap_2 (fun t => Z.abs (t - spike)))).
    lia.
Qed.

Lemma threshold_mask_loop_spec times threshold spikes :
  times ≠ [] ->
  ∀ ind mask, (ind + length spikes ≤ length mask)%nat ->
    threshold_mask_loop times threshold ind spikes mask
    = Ok (take ind mask
          ++ map (fun s => bool_decide (Exists (fun t => Z.abs (t - s) < threshold) times))
               spikes
          ++ drop (ind + length spikes) mask).
Proof.
  intros Hne. induction spikes as [|spike spikes IH]; intros ind mask Hlen.
  - cbn [threshold_mask_loop length map app]. by rewrite Nat.add_0_r, take_drop.
  - cbn [threshold_mask_loop length map] in *.
    destruct (min_distance times spike) as [d|] eqn:Hd; [|by destruct times].
    cbn [mbind result_bind].
    assert ((d <? threshold)
            = bool_decide (Exists (fun t => Z.abs (t - spike) < threshold) times)) as ->.
    { pose proof (min_distance_lt times spike threshold d Hd) as Hiff.
      destruct (Z.ltb_spec d threshold).
      - symmetry. apply bool_decide_eq_true_2. by apply Hiff.
      - symmetry. apply bool_decide_eq_false_2. intros Hex. apply Hiff in Hex. lia. }
    set (b := bool_decide _).
    rewrite IH by (rewrite length_insert; lia).
    rewrite (take_S_r _ _ b) by (apply list_lookup_insert_eq; lia).
    rewrite take_insert_ge, drop_insert_lt by lia.
    replace (S ind + length spikes)%nat with (ind + S (length spikes))%nat by lia.
    by rewrite <- app_assoc.
Qed.

Lemma threshold_spikes_by_times_run spikes times threshold :
  times ≠ [] ->
  threshold_spikes_by_times spikes times threshold
  = Ok (filter (fun s => Exists (fun t => Z.abs (t - s) < threshold) times) spikes).
Proof.
  intros Hne. unfold threshold_spikes_by_times.
  rewrite threshold_mask_loop_spec by by rewrite ?length_replicate.
  rewrite take_0, drop_ge, app_nil_r by by rewrite length_replicate.
  cbn [app mbind result_bind]. f_equal.
  apply index_mask_filter. intros s. by rewrite bool_decide_eq_true.
Qed.

(** X14. On a non-empty [times], [threshold_spikes_by_times] keeps, in
    their order, exactly the spikes that have a sample of [times] at a
    distance strictly less than the threshold. *)
Theorem threshold_spikes_by_times_keeps spikes times threshold :
  times ≠ [] ->
  threshold_spikes_by_times spikes times threshold
  = Ok (filter (fun s => Exists (fun t => Z.abs (t - s) < threshold) times) spikes).
Proof. apply threshold_spikes_by_times_run. Qed.

(** X15. The comparison with the threshold is strict: a threshold of
    zero (or less) keeps no spike, not even one that is itself a sample
    of [times]; and with an empty [times] the call raises as soon as
    there is a spike. *)
Theorem threshold_spikes_by_times_edges spikes times threshold :
  (times ≠ [] -> threshold ≤ 0 ->
   threshold_spikes_by_times spikes times threshold = Ok [])
  ∧ (spikes ≠ [] ->
     threshold_spikes_by_times spikes [] threshold
     = Raise (ValueError "zero-size array to reduction operation minimum which has no identity")).
Proof.
  split.
  - intros Hne Hle. rewrite threshold_spikes_by_times_run by done. f_equal.
    apply filter_Forall_nil. apply list.Forall_forall. intros s _ Hex.
    apply Exists_exists in Hex as (t & _ & Hlt). lia.
  - intros Hne. by destruct spikes.
Qed.

End threshold_by_times.

(** ** Dropping ranges, continued *)

Section drop_more.
Implicit Types (h : heap) (a spikes : arr) (data xs : list Z) (time_range : list trange_t).

Lemma adjust_trange_ordered total_len (trange : trange_t) :
  trange.1 ≤ trange.2 ->
  (adjust_trange total_len trange).1 ≤ (adjust_trange total_len trange).2.
Proof. unfold adjust_trange. destruct (0 <? total_len); cbn [fst snd]; lia. Qed.

(** *** The number of spikes under the check *)

Lemma drop_splice_empty_length xs (trange : trange_t) :
  trange.1 ≤ trange.2 ->
  filter (fun x => trange.1 ≤ x ≤ trange.2) xs = [] ->
  length (drop_splice xs trange) = length xs.
Proof.
  destruct trange as [start stop]. cbn [fst snd]. intros Hle Hnil.
  assert (Forall (fun s => ¬ (start ≤ s ≤ stop)) xs) as Hempty.
  { apply list.Forall_forall. intros x Hx Hin.
    by apply (filter_nil_not_elem_of _ _ x Hnil). }
  rewrite drop_splice_strict, length_app, length_map, <- length_app by done.
  by rewrite strict_split_perm.
Qed.

Lemma drop_range_loop_checked_length time_range : ∀ a total_len h a' h',
  Forall (fun r : trange_t => r.1 ≤ r.2) time_range ->
  drop_range_loop time_range true a total_len h = (Ok a', h') ->
  length (contents h' a') = length (contents h a).
Proof.
  induction time_range as [|trange rest IH]; intros a total_len h a' h' Hwf Hrun.
  { cbn in Hrun. by injection Hrun as <- <-. }
  apply Forall_cons_1 in Hwf as [Hle Hwf].
  rewrite drop_range_loop_step in Hrun. cbn zeta in Hrun. cbn [andb] in Hrun.
  destruct (decide (filter (fun x => (adjust_trange total_len trange).1 ≤ x
                                     ≤ (adjust_trange total_len trange).2)
                      (contents h a) = [])) as [Hnil|Hcons].
  - rewrite bool_decide_eq_true_2 in Hrun by done. cbn [negb] in Hrun.
    apply IH in Hrun; [|done]. rewrite Hrun, contents_new.
    apply drop_splice_empty_length; [by apply adjust_trange_ordered|done].
  - by rewrite bool_decide_eq_false_2 in Hrun.
Qed.

(** X17. With the check, a call of [drop_range] that returns has removed
    no spike: for ranges with [start <= stop] the array it returns has as
    many spikes as the array it was given. *)
Theorem drop_range_checked_count spikes time_range h a' h' :
  Forall (fun r : trange_t => r.1 ≤ r.2) time_range ->
  drop_range spikes time_range true h = (Ok a', h') ->
  length (contents h' a') = length (contents h spikes).
Proof.
  intros Hwf Hrun. rewrite drop_range_run in Hrun.
  apply drop_range_loop_checked_length in Hrun; [|done].
  by rewrite Hrun, contents_new.
Qed.

End drop_more.

(** ** Reinstating ranges, continued *)

Section reinstate_more.
Implicit Types (h : heap) (a spikes : arr) (xs row : list Z) (rows : list (list Z)).

Lemma not_elem_of_Forall_ne xs start :
  start ∉ xs -> Forall (fun s => ¬ (start ≤ s ≤ start)) xs.
Proof.
  intros Hnot. apply list.Forall_forall. intros s Hs Hle.
  assert (s = start) as -> by lia. done.
Qed.

(** With no spike at the range start, the two segments do not overlap
    and the row keeps its length. *)
Lemma reinstate_1d_strict xs start stop :
  start ∉ xs ->
  _reinstate_range_1d xs (start, stop)
  = filter (fun x => x < start) xs
    ++ map (fun x => x + (stop - start)) (filter (fun x => start < x) xs).
Proof.
  intros Hnot. apply not_elem_of_Forall_ne in Hnot.
  rewrite reinstate_1d_filter. cbn [fst snd].
  rewrite (filter_Forall_ext (fun x => x ≤ start) (fun x => x < start)),
    (filter_Forall_ext (fun x => start ≤ x) (fun x => start < x)); [done| |].
  - eapply Forall_impl; [|exact Hnot]. intros x Hx. cbn beta in *. lia.
  - eapply Forall_impl; [|exact Hnot]. intros x Hx. cbn beta in *. lia.
Qed.

Lemma reinstate_1d_same_length xs start stop :
  start ∉ xs -> length (_reinstate_range_1d xs (start, stop)) = length xs.
Proof.
  intros Hnot. rewrite reinstate_1d_length. cbn [fst].
  rewrite (filter_Forall_nil (fun x => x = start)); [cbn [length]; lia|].
  apply list.Forall_forall. by intros x Hx ->.
Qed.

Lemma reinstate_1d_sorted_map xs start stop :
  start ∉ xs ->
  Sorted Z.le xs ->
  _reinstate_range_1d xs (start, stop)
  = map (fun s => if decide (s < start) then s else s + (stop - start)) xs.
Proof.
  intros Hnot Hsorted. rewrite reinstate_1d_strict by done.
  apply not_elem_of_Forall_ne in Hnot.
  apply Sorted_StronglySorted in Hsorted; [|intros x y z; lia].
  induction Hsorted as [|x xs _ IH Hhd]; [done|].
  apply Forall_cons_1 in Hnot as [Hx Hnot]. cbn [map].
  destruct (decide (x < start)) as [Hlo|Hlo].
  - rewrite filter_cons_True, (filter_cons_False (fun y => start < y)) by lia.
    cbn [app]. f_equal. by apply IH.
  - rewrite (filter_Forall_nil (fun y => y < start)),
      (filter_Forall_id (fun y => start < y)).
    + cbn [app map]. f_equal. apply map_ext_Forall.
      rewrite list.Forall_forall in Hhd. apply list.Forall_forall. intros y Hy.
      specialize (Hhd y Hy). by rewrite decide_False by lia.
    + constructor; [lia|].
      eapply Forall_impl; [|exact Hhd]. intros y Hy. cbn beta in *. lia.
    + constructor; [lia|].
      eapply Forall_impl; [|exact Hhd]. intros y Hy. cbn beta in *. lia.
Qed.

Lemma reinstate_range_1d_run h a xs start stop :
  h !! base a = Some xs -> shape a = [length xs] -> start ∉ xs ->
  reinstate_range a [(start, stop)] h
  = (Ok (squeeze (Arr (length h) [1; length xs]%nat)),
     h ++ [_reinstate_range_1d xs (start, stop)]).
Proof.
  intros Hxs Hshape Hnot.
  rewrite (reinstate_range_1d_first h a xs) by done. cbn zeta.
  by rewrite assign_row_whole by by apply reinstate_1d_same_length.
Qed.

(** X19. When no spike of a 1d array is at the range start,
    [reinstate_range] returns as many spikes as it was given: those
    before the start as they are, followed by those after it, moved right
    by the length of the range; for spikes in non-decreasing order that
    is every spike in its place, moved or not. *)
Theorem reinstate_range_shifts h spikes xs start stop :
  h !! base spikes = Some xs -> shape spikes = [length xs] -> start ∉ xs ->
  ∃ out h',
    reinstate_range spikes [(start, stop)] h = (Ok out, h')
    ∧ contents h' out
      = filter (fun x => x < start) xs
        ++ map (fun x => x + (stop - start)) (filter (fun x => start < x) xs)
    ∧ length (contents h' out) = length xs
    ∧ (Sorted Z.le xs ->
       contents h' out
       = map (fun s => if decide (s < start) then s else s + (stop - start)) xs).
Proof.
  intros Hxs Hshape Hnot. eexists _, _.
  split; [by apply reinstate_range_1d_run|].
  unfold squeeze. cbn [base]. rewrite contents_new.
  split; [by apply reinstate_1d_strict|].
  split; [by apply reinstate_1d_same_length|].
  intros Hsorted. by apply reinstate_1d_sorted_map.
Qed.

(** *** 2d arrays: one spike train per row *)

Lemma concat_uniform_length rows c :
  Forall (fun row => length row = c) rows -> length (concat rows) = (length rows * c)%nat.
Proof.
  induction 1 as [|row rows Hrow _ IH]; [done|].
  cbn [concat length]. rewrite length_app, IH, Hrow. lia.
Qed.

(** The rows from [pre] on are read, reinstated and written back, one by
    one; the rows before them are left as they are. *)
Lemma reinstate_rows_2d (trange : trange_t) b r c rest : ∀ pre h,
  h !! b = Some (concat pre ++ concat rest) ->
  Forall (fun row => length row = c) pre ->
  Forall (fun row => length row = c) rest ->
  Forall (fun row => trange.1 ∉ row) rest ->
  reinstate_rows (Arr b [r; c]) trange (seq (length pre) (length rest)) h
  = (Ok (),
     <[b := concat pre
            ++ concat (map (fun row => _reinstate_range_1d row trange) rest)]> h).
Proof.
  destruct trange as [start stop]. cbn [fst].
  induction rest as [|row rest IH]; intros pre h Hb Hpre Hrest Hnot.
  - cbn [length seq reinstate_rows map concat]. unfold mret, M_ret.
    by rewrite list_insert_id.
  - apply Forall_cons_1 in Hrest as [Hrow Hrest].
    apply Forall_cons_1 in Hnot as [Hnotrow Hnot].
    cbn [length seq reinstate_rows map concat] in *.
    unfold mbind at 1, M_bind at 1, read_row, ncols, contents.
    cbn [shape base lookup list_lookup default id]. rewrite Hb. cbn [default id].
    rewrite <- (concat_uniform_length pre c Hpre), drop_app_length.
    rewrite (take_app_length' row _ c) by done.
    unfold mbind, M_bind, assign_row, ncols, contents.
    cbn [shape base lookup list_lookup default id]. rewrite Hb. cbn [default id].
    rewrite reinstate_1d_same_length, Hrow, Nat.eqb_refl by done.
    rewrite <- (concat_uniform_length pre c Hpre), take_app_length.
    replace (S (length pre) * c)%nat with (length (concat pre ++ row))
      by (rewrite length_app, (concat_uniform_length pre c Hpre), Hrow; lia).
    rewrite (app_assoc (concat pre) row), drop_app_length.
    specialize (IH (pre ++ [_reinstate_range_1d row (start, stop)])).
    rewrite length_app in IH. cbn [length] in IH.
    replace (length pre + 1)%nat with (S (length pre)) in IH by lia.
    rewrite IH.
    + rewrite list_insert_insert_eq, concat_app. cbn [concat].
      by rewrite app_nil_r, <- app_assoc.
    + rewrite list_lookup_insert_eq by by eapply lookup_lt_Some.
      rewrite concat_app. cbn [concat]. by rewrite app_nil_r, <- app_assoc.
    + apply Forall_app. split; [done|]. constructor; [|done].
      by rewrite reinstate_1d_same_length.
    + done.
    + done.
Qed.

(** X21. A 2d array is reinstated row by row: for an array of rows of
    one width, none of which has a spike at the range start,
    [reinstate_range] returns the array of the reinstated rows, each row
    what it would be as a 1d array of its own. *)
Theorem reinstate_range_rows h spikes rows c start stop :
  h !! base spikes = Some (concat rows) ->
  shape spikes = [length rows; c] ->
  Forall (fun row => length row = c) rows ->
  Forall (fun row => start ∉ row) rows ->
  reinstate_range spikes [(start, stop)] h
  = (Ok (squeeze (Arr (length h) [length rows; c])),
     h ++ [concat (map (fun row => _reinstate_range_1d row (start, stop)) rows)]).
Proof.
  intros Hdata Hshape Hwidth Hnot. unfold reinstate_range.
  rewrite Hshape. cbn [length Nat.ltb Nat.leb].
  unfold mbind at 1, M_bind at 1, np_copy. cbn beta iota.
  unfold contents at 1. rewrite Hdata, Hshape. cbn [default id].
  unfold atleast_2d. cbn [shape].
  cbn [reinstate_range_loop]. unfold mbind, M_bind, nrows.
  cbn [shape lookup list_lookup default id].
  rewrite (reinstate_rows_2d (start, stop) (length h) (length rows) c rows []).
  - cbn [concat app]. unfold mret, M_ret. do 2 f_equal.
    rewrite <- (Nat.add_0_r (length h)), insert_app_r. done.
  - by rewrite list_lookup_middle.
  - constructor.
  - done.
  - done.
Qed.

End reinstate_more.

(** ** Epoching, continued *)

Section epoching_more.
Implicit Types (spikes events starts stops : list Z) (window : Z * Z).

Lemma epoch_range_loop_spec spikes reset : ∀ starts stops ind trials,
  (ind + length (zip starts stops) ≤ length trials)%nat ->
  epoch_range_loop spikes reset ind starts stops trials
  = take ind trials
    ++ map (fun range => Some (trial_of_range spikes reset range)) (zip starts stops)
    ++ drop (ind + length (zip starts stops)) trials.
Proof.
  induction starts as [|start starts IH]; intros stops ind trials Hlen.
  { cbn [epoch_range_loop zip zip_with map length app].
    by rewrite Nat.add_0_r, take_drop. }
  destruct stops as [|stop stops].
  { cbn [epoch_range_loop zip zip_with map length app].
    by rewrite Nat.add_0_r, take_drop. }
  cbn [epoch_range_loop zip zip_with map length] in *.
  unfold restrict_range. rewrite get_range_between.
  change (if reset then map (fun x => x - start) (filter (fun x => start ≤ x ≤ stop) spikes)
          else filter (fun x => start ≤ x ≤ stop) spikes)
    with (trial_of_range spikes reset (start, stop)).
  rewrite IH by (rewrite length_insert; lia).
  rewrite (take_S_r _ _ (Some (trial_of_range spikes reset (start, stop))))
    by (apply list_lookup_insert_eq; lia).
  rewrite take_insert_ge, drop_insert_lt by lia.
  replace (S ind + length (zip starts stops))%nat
    with (ind + S (length (zip starts stops)))%nat by lia.
  by rewrite <- app_assoc.
Qed.

(** X23. [epoch_spikes_by_range] pairs the starts with the stops up to
    the shorter of the two lists: the result has one entry per start; the
    entry of a pair holds the spikes within [[start, stop]], in their
    order, less [start] when [reset] is set; and when there are fewer
    stops than starts the entries that are left stay [None]. *)
Theorem epoch_spikes_by_range_trials spikes starts stops reset :
  epoch_spikes_by_range spikes starts stops reset
  = map (fun range => Some (trial_of_range spikes reset range)) (zip starts stops)
    ++ replicate (length starts - length stops) None.
Proof.
  unfold epoch_spikes_by_range.
  assert (length (zip starts stops) = (length starts `min` length stops)%nat) as Hzip
    by apply length_zip_with.
  rewrite epoch_range_loop_spec by (rewrite length_replicate; lia).
  rewrite take_0, drop_replicate. cbn [app Nat.add]. do 2 f_equal. lia.
Qed.

End epoching_more.

(** ** Spike trains from probabilities *)

Section spike_probabilities.
Variable np_random_rand : rand_t.

(** The library returns as many draws as it is asked for, each in
    [0, 1). *)
Hypothesis rand_length : ∀ n, length (np_random_rand n) = n.
Hypothesis rand_unit : ∀ n, Forall (fun u => (0 <= u)%Qc ∧ (u < 1)%Qc) (np_random_rand n).

Lemma spikes_of_probs probs :
  let spikes := map (fun b : bool => if b then 1 else 0)
                  (zip_with (fun p u => bool_decide (u < p)%Qc) probs
                     (np_random_rand (length probs))) in
  length spikes = length probs ∧ Forall binary spikes.
Proof.
  cbn zeta. split.
  - rewrite length_map, length_zip_with, rand_length. lia.
  - apply list.Forall_forall. intros x Hx.
    apply list_elem_of_fmap in Hx as ([] & -> & _); [by right|by left].
Qed.

(** X24. [sim_spiketrain_prob] checks its arguments as its docstring
    says and returns a train of zeros and ones of the length asked for: a
    float probability without [n_samples] raises the [ValueError]; with
    [n_samples >= 0] the train has [n_samples] entries; a probability
    array gives a train of its own length, whatever [n_samples] is. *)
Theorem sim_spiketrain_prob_train p ps n n_samples :
  sim_spiketrain_prob np_random_rand (PFloat p) None = Raise (ValueError n_samples_msg)
  ∧ (0 ≤ n ->
     ∃ spikes, sim_spiketrain_prob np_random_rand (PFloat p) (Some n) = Ok spikes
               ∧ length spikes = Z.to_nat n ∧ Forall binary spikes)
  ∧ (∃ spikes, sim_spiketrain_prob np_random_rand (PArray ps) n_samples = Ok spikes
               ∧ length spikes = length ps ∧ Forall binary spikes).
Proof.
  split; [done|]. split.
  - intros Hn. unfold sim_spiketrain_prob, ones_times.
    destruct (Z.ltb_spec n 0); [lia|]. cbn [mbind result_bind].
    eexists. split; [done|].
    destruct (spikes_of_probs (replicate (Z.to_nat n) (1 * p)%Qc)) as [Hlen Hbin].
    rewrite length_replicate in Hlen at 2. done.
  - unfold sim_spiketrain_prob. cbn [mbind result_bind].
    eexists. split; [done|]. apply spikes_of_probs.
Qed.

(** X25. The extremes of the probability: with draws in [0, 1), a
    probability of zero (or less) gives a train of zeros and a
    probability of one (or more) a train of ones. *)
Theorem sim_spiketrain_prob_extremes p n :
  0 ≤ n ->
  ((p <= 0)%Qc ->
   sim_spiketrain_prob np_random_rand (PFloat p) (Some n) = Ok (replicate (Z.to_nat n) 0))
  ∧ ((1 <= p)%Qc ->
     sim_spiketrain_prob np_random_rand (PFloat p) (Some n) = Ok (replicate (Z.to_nat n) 1)).
Proof.
  intros Hn.
  assert (∀ (b : bool) (x : Z),
            (∀ u, (0 <= u)%Qc ∧ (u < 1)%Qc -> bool_decide (u < 1 * p)%Qc = b) ->
            x = (if b then 1 else 0) ->
            sim_spiketrain_prob np_random_rand (PFloat p) (Some n)
            = Ok (replicate (Z.to_nat n) x)) as Hall.
  { intros b x Hb ->. unfold sim_spiketrain_prob, ones_times.
    destruct (Z.ltb_spec n 0); [lia|]. cbn [mbind result_bind]. f_equal.
    rewrite length_replicate.
    pose proof (rand_length (Z.to_nat n)) as Hlen.
    pose proof (rand_unit (Z.to_nat n)) as Hunit.
    revert Hlen Hunit. generalize (np_random_rand (Z.to_nat n)).
    induction (Z.to_nat n) as [|k IH]; intros [|u us] Hlen Hunit; try done.
    apply Forall_cons_1 in Hunit as [Hu Hunit]. injection Hlen as Hlen.
    cbn [replicate zip_with map]. rewrite (Hb u Hu). f_equal. by apply IH. }
  rewrite Qcmult_1_l in Hall. split; intros Hp.
  - apply (Hall false); [|done]. intros u [Hu _]. apply bool_decide_eq_false_2.
    apply Qcle_not_lt. by eapply Qcle_trans.
  - apply (Hall true); [|done]. intros u [_ Hu]. apply bool_decide_eq_true_2.
    by eapply Qclt_le_trans.
Qed.

End spike_probabilities.

(** * Dropping and reinstating ranges on rounded numbers *)

Section rounded.
Context {T : Type} `{!Numeric.Number T}.
Implicit Types (h : list (list T)) (a spikes : arr) (data xs : list T) (x start stop : T).

Lemma num_index_mask_filter (f : T -> bool) data :
  Numeric.index_mask data (map f data) = filter (fun x => f x) data.
Proof.
  induction data as [|x data IH]; [done|].
  cbn [map Numeric.index_mask]. rewrite filter_cons, IH.
  by destruct (f x).
Qed.

(** With one bound, the comparison with the infinity on the other side
    selects nothing less: a number that compares is within the
    infinities. *)
Lemma num_get_range_below data start :
  Numeric.get_range data None (Some start) None
  = filter (fun x => Numeric.num_leb x start) data.
Proof.
  unfold Numeric.get_range, Numeric.create_mask.
  cbn [Numeric.truthy Numeric.ge_min Numeric.le_max].
  rewrite (map_ext _ (fun x => Numeric.num_leb x start)).
  - apply num_index_mask_filter.
  - intros x. destruct (Numeric.num_leb x start) eqn:Hle; [|apply andb_false_r].
    apply Numeric.num_leb_bounded in Hle as [-> _]. done.
Qed.

Lemma num_get_range_above data start :
  Numeric.get_range data (Some start) None None
  = filter (fun x => Numeric.num_leb start x) data.
Proof.
  unfold Numeric.get_range, Numeric.create_mask.
  cbn [Numeric.truthy Numeric.ge_min Numeric.le_max].
  rewrite (map_ext _ (fun x => Numeric.num_leb start x)).
  - apply num_index_mask_filter.
  - intros x. destruct (Numeric.num_leb start x) eqn:Hle; [|done].
    apply Numeric.num_leb_bounded in Hle as [_ ->]. done.
Qed.

Lemma num_get_range_between data start stop :
  Numeric.get_range data (Some start) (Some stop) None
  = filter (fun x => Numeric.num_leb start x && Numeric.num_leb x stop) data.
Proof.
  unfold Numeric.get_range, Numeric.create_mask.
  cbn [Numeric.truthy Numeric.ge_min Numeric.le_max].
  apply (num_index_mask_filter (fun x => Numeric.num_leb start x && Numeric.num_leb x stop)).
Qed.

(** The second segment of the splice: the spikes from the range end on,
    less the range length when that length is truthy. *)
Lemma num_get_range_shifted data start stop :
  Numeric.get_range data (Some stop) None (Some (Numeric.num_sub stop start))
  = map (Numeric.shifted start stop) (filter (fun x => Numeric.num_leb stop x) data).
Proof.
  pose proof (num_get_range_above data stop) as Habove.
  unfold Numeric.get_range in *. cbn [Numeric.truthy default id] in *.
  rewrite Habove. unfold Numeric.shifted.
  destruct (Numeric.num_truthy (Numeric.num_sub stop start)); [done|].
  by rewrite map_id.
Qed.

Lemma num_contents_new h data sh :
  Numeric.contents (h ++ [data]) (Arr (length h) sh) = data.
Proof. unfold Numeric.contents. cbn [base]. by rewrite list_lookup_middle. Qed.

(** One range: the check, and the splice. *)
Lemma num_drop_range_single spikes start stop check_empty h :
  Numeric.drop_range spikes [(start, stop)] check_empty h
  = let xs := Numeric.contents h spikes in
    let out := filter (fun x => Numeric.num_leb x start) xs
               ++ map (Numeric.shifted start stop)
                    (filter (fun x => Numeric.num_leb stop x) xs) in
    if check_empty
       && negb (length (filter (fun x => Numeric.num_leb start x && Numeric.num_leb x stop)
                          xs) =? 0)%nat
    then (Raise AssertionError, h ++ [xs])
    else (Ok (Arr (S (length h)) [length out]), h ++ [xs; out]).
Proof.
  unfold Numeric.drop_range, Numeric.np_copy.
  unfold mbind at 1, Numeric.M_bind at 1. cbn beta iota.
  cbn [Numeric.drop_range_loop]. rewrite Numeric.num_zero_not_pos.
  unfold mbind, Numeric.M_bind, Numeric.np_read, Numeric.np_new, Numeric.raise, mret,
    Numeric.M_ret.
  cbn beta iota zeta. cbn [fst snd].
  rewrite num_contents_new, num_get_range_between, num_get_range_below,
    num_get_range_shifted.
  destruct check_empty; cbn [andb].
  - destruct (length (filter _ (Numeric.contents h spikes)) =? 0)%nat; cbn [negb].
    + rewrite length_app, <- app_assoc. cbn [length app]. do 3 f_equal. lia.
    + done.
  - rewrite length_app, <- app_assoc. cbn [length app]. do 3 f_equal. lia.
Qed.

(** *** What the order gives *)

Lemma ordered_on_total (l : list T) x y :
  Numeric.ordered_on l = true -> x ∈ l -> y ∈ l ->
  Numeric.num_leb x y = true ∨ Numeric.num_leb y x = true.
Proof.
  intros Hord Hx Hy. unfold Numeric.ordered_on in Hord.
  rewrite forallb_forall in Hord. apply list_elem_of_In in Hx, Hy.
  specialize (Hord x Hx). rewrite forallb_forall in Hord. specialize (Hord y Hy).
  apply andb_true_iff in Hord as [Htotal _]. by apply orb_true_iff in Htotal.
Qed.

Lemma ordered_on_trans (l : list T) x y z :
  Numeric.ordered_on l = true -> x ∈ l -> y ∈ l -> z ∈ l ->
  Numeric.num_leb x y = true -> Numeric.num_leb y z = true -> Numeric.num_leb x z = true.
Proof.
  intros Hord Hx Hy Hz Hxy Hyz. unfold Numeric.ordered_on in Hord.
  rewrite forallb_forall in Hord. apply list_elem_of_In in Hx, Hy, Hz.
  specialize (Hord x Hx). rewrite forallb_forall in Hord. specialize (Hord y Hy).
  apply andb_true_iff in Hord as [_ Htrans].
  rewrite forallb_forall in Htrans. specialize (Htrans z Hz).
  by rewrite Hxy, Hyz in Htrans.
Qed.

Lemma num_filter_all (f : T -> bool) xs :
  (∀ x, x ∈ xs -> f x = true) -> filter (fun x => f x) xs = xs.
Proof.
  induction xs as [|x xs IH]; intros Hall; [done|].
  rewrite filter_cons, (Hall x) by by left. cbn [decide Is_true_dec Is_true].
  rewrite decide_True by done. f_equal. apply IH. intros y Hy. apply Hall. by right.
Qed.

Lemma num_filter_none (f : T -> bool) xs :
  (∀ x, x ∈ xs -> f x = false) -> filter (fun x => f x) xs = [].
Proof.
  induction xs as [|x xs IH]; intros Hnone; [done|].
  rewrite filter_cons, (Hnone x) by by left.
  rewrite decide_False by (by intros []). apply IH. intros y Hy. apply Hnone. by right.
Qed.

Lemma num_elem_of_filter (f : T -> bool) xs x :
  x ∈ filter (fun x => f x) xs ↔ f x = true ∧ x ∈ xs.
Proof. rewrite list_elem_of_filter, Is_true_true. done. Qed.

(** C10 (amended). Without the check, dropping one range [start, stop]
    returns the spikes [<= start] as they are, followed by the spikes
    [>= stop], each less [stop - start], and nothing else: a spike equal
    to [start] is retained unchanged, a spike equal to [stop] is retained
    as [stop - (stop - start)], and for [start < stop] every spike is
    retained once but those strictly between [start] and [stop], which
    are removed. *)
Theorem drop_range_boundaries_rounded spikes start stop h :
  let xs := Numeric.contents h spikes in
  let out := filter (fun x => Numeric.num_leb x start) xs
             ++ map (Numeric.shifted start stop)
                  (filter (fun x => Numeric.num_leb stop x) xs) in
  Numeric.drop_range spikes [(start, stop)] false h
  = (Ok (Arr (S (length h)) [length out]), h ++ [xs; out])
  ∧ (∀ s, s ∈ xs -> Numeric.num_leb s start = true -> s ∈ out)
  ∧ (∀ s, s ∈ xs -> Numeric.num_leb stop s = true -> Numeric.shifted start stop s ∈ out)
  ∧ (start ∈ xs -> Numeric.num_leb start start = true -> start ∈ out)
  ∧ (stop ∈ xs -> Numeric.num_leb stop stop = true ->
     Numeric.shifted start stop stop ∈ out)
  ∧ (∀ x, x ∈ out ->
       ∃ s, s ∈ xs ∧ ((Numeric.num_leb s start = true ∧ x = s)
                      ∨ (Numeric.num_leb stop s = true ∧ x = Numeric.shifted start stop s)))
  ∧ (Numeric.ordered_on (start :: stop :: xs) = true ->
     Numeric.num_leb stop start = false ->
     (length out
      + length (filter (fun x => negb (Numeric.num_leb x start)
                                 && negb (Numeric.num_leb stop x)) xs)
      = length xs)%nat).
Proof.
  intros xs out.
  assert (∀ s, s ∈ xs -> Numeric.num_leb s start = true -> s ∈ out) as Hlow.
  { intros s Hs Hle. apply elem_of_app. left. by apply num_elem_of_filter. }
  assert (∀ s, s ∈ xs -> Numeric.num_leb stop s = true ->
            Numeric.shifted start stop s ∈ out) as Hhigh.
  { intros s Hs Hle. apply elem_of_app. right.
    apply (list_elem_of_fmap_2 (Numeric.shifted start stop)).
    by apply num_elem_of_filter. }
  split; [apply (num_drop_range_single spikes start stop false h)|].
  split; [exact Hlow|]. split; [exact Hhigh|].
  split; [intros Hin Hrefl; by apply Hlow|].
  split; [intros Hin Hrefl; by apply Hhigh|]. split.
  - intros x Hx. apply elem_of_app in Hx as [Hx|Hx].
    + apply num_elem_of_filter in Hx as [Hle Hx]. exists x. split; [done|]. by left.
    + apply list_elem_of_fmap in Hx as (s & -> & Hs).
      apply num_elem_of_filter in Hs as [Hle Hs]. exists s. split; [done|]. by right.
  - intros Hord Hlt. unfold out. rewrite length_app, length_map.
    cut (∀ l, (∀ x, x ∈ l -> x ∈ start :: stop :: xs) ->
           (length (filter (fun x => Numeric.num_leb x start) l)
            + length (filter (fun x => Numeric.num_leb stop x) l)
            + length (filter (fun x => negb (Numeric.num_leb x start)
                                       && negb (Numeric.num_leb stop x)) l)
            = length l)%nat).
    { intros Hgen. apply Hgen. intros x Hx. by do 2 right. }
    intros l. induction l as [|x l IH]; intros Hmem; [done|].
    assert (Numeric.num_leb x start = true -> Numeric.num_leb stop x = true -> False)
      as Hexcl.
    { intros Hlo Hhi.
      rewrite (ordered_on_trans (start :: stop :: xs) stop x start Hord) in Hlt;
        [done|by right; left|by apply Hmem; left|by left|done|done]. }
    rewrite !filter_cons.
    specialize (IH (fun y Hy => Hmem y (list_elem_of_further _ _ _ Hy))).
    destruct (Numeric.num_leb x start) eqn:Hlo, (Numeric.num_leb stop x) eqn:Hhi;
      try (by exfalso; apply Hexcl); cbn [negb andb];
      rewrite ?(decide_True (P := Is_true true)) by done;
      rewrite ?(decide_False (P := Is_true false)) by (by intros []);
      cbn [length]; lia.
Qed.

(** *** Reinstating a range into a 1d array *)

Lemma num_reinstate_1d_filter xs start stop :
  Numeric._reinstate_range_1d xs (start, stop)
  = filter (fun x => Numeric.num_leb x start) xs
    ++ map (fun x => Numeric.num_add x (Numeric.num_sub stop start))
         (filter (fun x => Numeric.num_leb start x) xs).
Proof.
  unfold Numeric._reinstate_range_1d. cbn [fst snd].
  by rewrite num_get_range_below, num_get_range_above.
Qed.

Lemma num_assign_row_whole h xs new :
  length new = length xs ->
  Numeric.assign_row (Arr (length h) [1; length xs]%nat) 0 new (h ++ [xs])
  = (Ok (), h ++ [new]).
Proof.
  intros Hlen. unfold Numeric.assign_row, ncols.
  cbn [shape lookup list_lookup default base].
  rewrite num_contents_new, Hlen, Nat.eqb_refl.
  cbn [Nat.mul]. unfold id. rewrite take_0, Nat.add_0_r, drop_all, app_nil_r. cbn [app].
  f_equal. rewrite <- (Nat.add_0_r (length h)), insert_app_r. done.
Qed.

(** One range, on a 1d array: the copy is viewed as one row, which is
    read, reinstated and assigned. *)
Lemma num_reinstate_range_1d_single h a xs start stop :
  h !! base a = Some xs -> shape a = [length xs] ->
  Numeric.reinstate_range a [(start, stop)] h
  = let a2 := Arr (length h) [1; length xs]%nat in
    match Numeric.assign_row a2 0 (Numeric._reinstate_range_1d xs (start, stop))
            (h ++ [xs]) with
    | (Ok _, h') => (Ok (squeeze a2), h')
    | (Raise e, h') => (Raise e, h')
    end.
Proof.
  intros Hxs Hshape. unfold Numeric.reinstate_range. rewrite Hshape.
  cbn [length Nat.ltb Nat.leb].
  unfold mbind, Numeric.M_bind, Numeric.np_copy. cbn beta iota.
  unfold Numeric.contents at 1. rewrite Hxs, Hshape. cbn [default id].
  unfold atleast_2d. cbn [shape base].
  cbn [Numeric.reinstate_range_loop]. unfold mbind, Numeric.M_bind, nrows.
  cbn [shape lookup list_lookup default id seq Numeric.reinstate_rows].
  unfold mbind, Numeric.M_bind, Numeric.read_row, ncols.
  cbn [shape lookup list_lookup default id Nat.mul drop].
  rewrite num_contents_new, take_ge by done.
  by destruct (Numeric.assign_row _ 0 _ _) as [[[]|e] h'].
Qed.

(** *** A range that holds no spike *)

Section empty_range.
Variables (start stop : T) (xs : list T).
Hypothesis Hord :
  Numeric.ordered_on (start :: stop :: xs ++ map (Numeric.shifted start stop) xs) = true.
Hypothesis Hle : Numeric.num_leb start stop = true.
Hypothesis Hempty :
  forallb (fun s => negb (Numeric.num_leb start s && Numeric.num_leb s stop)) xs = true.
Hypothesis Hafter :
  forallb (fun x => implb (Numeric.num_leb stop x)
                      (negb (Numeric.num_leb (Numeric.shifted start stop x) start))) xs
  = true.

Let within := start :: stop :: xs ++ map (Numeric.shifted start stop) xs.

Lemma within_start : start ∈ within.
Proof. by left. Qed.

Lemma within_stop : stop ∈ within.
Proof. right. by left. Qed.

Lemma within_spike x : x ∈ xs -> x ∈ within.
Proof. intros Hx. do 2 right. apply elem_of_app. by left. Qed.

Lemma within_shifted x : x ∈ xs -> Numeric.shifted start stop x ∈ within.
Proof.
  intros Hx. do 2 right. apply elem_of_app. right.
  by apply (list_elem_of_fmap_2 (Numeric.shifted start stop)).
Qed.

Lemma spike_not_inside x :
  x ∈ xs -> Numeric.num_leb start x = true -> Numeric.num_leb x stop = true -> False.
Proof.
  intros Hx Hlo Hhi. rewrite forallb_forall in Hempty.
  apply list_elem_of_In in Hx. specialize (Hempty x Hx). by rewrite Hlo, Hhi in Hempty.
Qed.

(** A spike is on one side of the range, and on one side only. *)
Lemma spike_side x :
  x ∈ xs -> Numeric.num_leb stop x = negb (Numeric.num_leb x start).
Proof.
  intros Hx.
  pose proof within_start as Hs. pose proof within_stop as Hp.
  pose proof (within_spike x Hx) as Hw.
  destruct (Numeric.num_leb x start) eqn:Hlo; cbn [negb].
  - destruct (Numeric.num_leb stop x) eqn:Hhi; [|done]. exfalso.
    apply (spike_not_inside x Hx).
    + by apply (ordered_on_trans within start stop x Hord).
    + by apply (ordered_on_trans within x start stop Hord).
  - destruct (ordered_on_total within x start Hord Hw Hs) as [Habs|Hge];
      [by rewrite Habs in Hlo|].
    destruct (ordered_on_total within x stop Hord Hw Hp) as [Hhi|Hhi]; [|done].
    exfalso. by apply (spike_not_inside x Hx).
Qed.

Lemma spike_before_not_from_start x :
  x ∈ xs -> Numeric.num_leb x start = true -> Numeric.num_leb start x = false.
Proof.
  intros Hx Hlo. destruct (Numeric.num_leb start x) eqn:Hge; [|done]. exfalso.
  apply (spike_not_inside x Hx); [done|].
  apply (ordered_on_trans within x start stop Hord);
    [by apply within_spike|apply within_start|apply within_stop|done|done].
Qed.

Lemma dropped_after_start x :
  x ∈ xs -> Numeric.num_leb stop x = true ->
  Numeric.num_leb (Numeric.shifted start stop x) start = false
  ∧ Numeric.num_leb start (Numeric.shifted start stop x) = true.
Proof.
  intros Hx Hhi. rewrite forallb_forall in Hafter.
  pose proof (Hafter x (proj1 (list_elem_of_In _ _) Hx)) as Hx'.
  rewrite Hhi in Hx'. cbn [implb] in Hx'. apply negb_true_iff in Hx'.
  split; [done|].
  destruct (ordered_on_total within (Numeric.shifted start stop x) start Hord)
    as [Habs|Hge]; [by apply within_shifted|apply within_start| |done].
  by rewrite Habs in Hx'.
Qed.

(** The check of [drop_range] passes. *)
Lemma range_selects_nothing :
  filter (fun x => Numeric.num_leb start x && Numeric.num_leb x stop) xs = [].
Proof.
  apply (num_filter_none (fun x => Numeric.num_leb start x && Numeric.num_leb x stop)).
  intros x Hx. rewrite forallb_forall in Hempty.
  apply negb_true_iff. apply Hempty. by apply list_elem_of_In.
Qed.

Lemma split_length :
  length (filter (fun x => Numeric.num_leb x start) xs
          ++ map (Numeric.shifted start stop) (filter (fun x => Numeric.num_leb stop x) xs))
  = length xs.
Proof.
  rewrite length_app, length_map.
  pose proof spike_side as Hside. revert Hside. generalize xs. intros l.
  induction l as [|x l IH]; intros Hside; [done|].
  rewrite !filter_cons, (Hside x) by by left.
  specialize (IH (fun y Hy => Hside y (list_elem_of_further _ _ _ Hy))).
  destruct (Numeric.num_leb x start); cbn [negb];
    rewrite ?(decide_True (P := Is_true true)) by done;
    rewrite ?(decide_False (P := Is_true false)) by (by intros []);
    cbn [length]; lia.
Qed.

(** Reinstating the range into what [drop_range] returned: the spikes
    before the range are selected by the first segment only, the
    dropped spikes by the second only, where the range length is added
    back to each. *)
Lemma reinstate_dropped :
  Numeric._reinstate_range_1d
    (filter (fun x => Numeric.num_leb x start) xs
     ++ map (Numeric.shifted start stop) (filter (fun x => Numeric.num_leb stop x) xs))
    (start, stop)
  = filter (fun x => Numeric.num_leb x start) xs
    ++ map (Numeric.restored start stop) (filter (fun x => Numeric.num_leb stop x) xs).
Proof.
  rewrite num_reinstate_1d_filter, !list.filter_app.
  rewrite (num_filter_all (fun x => Numeric.num_leb x start)
             (filter (fun x => Numeric.num_leb x start) xs))
    by (intros x Hx; by apply num_elem_of_filter in Hx as [? _]).
  rewrite (num_filter_none (fun x => Numeric.num_leb x start)
             (map (Numeric.shifted start stop) _)).
  2:{ intros y Hy. apply list_elem_of_fmap in Hy as (x & -> & Hx).
      apply num_elem_of_filter in Hx as [Hhi Hx]. by apply dropped_after_start. }
  rewrite (num_filter_none (fun x => Numeric.num_leb start x)
             (filter (fun x => Numeric.num_leb x start) xs)).
  2:{ intros x Hx. apply num_elem_of_filter in Hx as [Hlo Hx].
      by apply spike_before_not_from_start. }
  rewrite (num_filter_all (fun x => Numeric.num_leb start x)
             (map (Numeric.shifted start stop) _)).
  2:{ intros y Hy. apply list_elem_of_fmap in Hy as (x & -> & Hx).
      apply num_elem_of_filter in Hx as [Hhi Hx]. by apply dropped_after_start. }
  rewrite app_nil_r. cbn [app]. by rewrite map_map.
Qed.

(** In non-decreasing order the spikes before the range come first. *)
Lemma split_in_order :
  Numeric.sortedb xs = true ->
  filter (fun x => Numeric.num_leb x start) xs
  ++ map (Numeric.restored start stop) (filter (fun x => Numeric.num_leb stop x) xs)
  = map (fun x => if Numeric.num_leb x start then x else Numeric.restored start stop x) xs.
Proof.
  pose proof spike_side as Hside. pose proof within_spike as Hin.
  revert Hside Hin. generalize xs. intros l.
  induction l as [|x l IH]; intros Hside Hin Hsorted; [done|].
  cbn [Numeric.sortedb] in Hsorted. apply andb_true_iff in Hsorted as [Hhd Hsorted].
  specialize (IH (fun y Hy => Hside y (list_elem_of_further _ _ _ Hy))
                 (fun y Hy => Hin y (list_elem_of_further _ _ _ Hy)) Hsorted).
  rewrite !filter_cons, (Hside x) by by left. cbn [map].
  destruct (Numeric.num_leb x start) eqn:Hlo; cbn [negb].
  - rewrite (decide_True (P := Is_true true)) by done.
    rewrite (decide_False (P := Is_true false)) by (by intros []).
    cbn [app]. by rewrite IH.
  - rewrite (decide_False (P := Is_true false)) by (by intros []).
    rewrite (decide_True (P := Is_true true)) by done.
    assert (∀ y, y ∈ l -> Numeric.num_leb y start = false) as Hlater.
    { intros y Hy. destruct (Numeric.num_leb y start) eqn:Hy'; [|done].
      rewrite forallb_forall in Hhd.
      pose proof (Hhd y (proj1 (list_elem_of_In _ _) Hy)) as Hxy.
      rewrite (ordered_on_trans within x y start Hord) in Hlo;
        [done|by apply Hin; left|by apply Hin; right|apply within_start|done|done]. }
    rewrite (num_filter_none (fun x => Numeric.num_leb x start) l) by done.
    rewrite (num_filter_all (fun x => Numeric.num_leb stop x) l).
    2:{ intros y Hy. rewrite (Hside y) by by right. by rewrite (Hlater y Hy). }
    cbn [app map]. f_equal. apply map_ext_in. intros y Hy.
    by rewrite (Hlater y (proj2 (list_elem_of_In _ _) Hy)).
Qed.

End empty_range.

(** C1 (amended). For a 1d array of spikes and a range [start <= stop]
    that holds none of them, such that every spike after the range,
    once shifted by [drop_range], is still after [start]:
    [drop_range] returns, [reinstate_range] of its result with the same
    range returns, and the array it returns has as many spikes as the
    original (it is 0d when that is one spike). It holds the spikes
    before the range, unchanged, followed by the spikes after it, each
    as [(x - (stop - start)) + (stop - start)]: the original spike up to
    the rounding of these two operations. When the spikes are in
    non-decreasing order, each spike is returned at its place. *)
Theorem drop_reinstate_rounded h spikes xs start stop :
  h !! base spikes = Some xs ->
  shape spikes = [length xs] ->
  Numeric.ordered_on (start :: stop :: xs ++ map (Numeric.shifted start stop) xs) = true ->
  Numeric.num_leb start stop = true ->
  forallb (fun s => negb (Numeric.num_leb start s && Numeric.num_leb s stop)) xs = true ->
  forallb (fun x => implb (Numeric.num_leb stop x)
                      (negb (Numeric.num_leb (Numeric.shifted start stop x) start))) xs
  = true ->
  ∃ dropped h1 out h2,
    Numeric.drop_range spikes [(start, stop)] true h = (Ok dropped, h1)
    ∧ Numeric.reinstate_range dropped [(start, stop)] h1 = (Ok out, h2)
    ∧ shape out = (if decide (length xs = 1%nat) then [] else [length xs])
    ∧ Numeric.contents h2 out
      = filter (fun x => Numeric.num_leb x start) xs
        ++ map (Numeric.restored start stop) (filter (fun x => Numeric.num_leb stop x) xs)
    ∧ length (Numeric.contents h2 out) = length xs
    ∧ (Numeric.sortedb xs = true ->
       Numeric.contents h2 out
       = map (fun x => if Numeric.num_leb x start then x
                       else Numeric.restored start stop x) xs).
Proof.
  intros Hxs Hshape Hord Hle Hempty Hafter.
  set (out := filter (fun x => Numeric.num_leb x start) xs
              ++ map (Numeric.shifted start stop)
                   (filter (fun x => Numeric.num_leb stop x) xs)).
  set (back := filter (fun x => Numeric.num_leb x start) xs
               ++ map (Numeric.restored start stop)
                    (filter (fun x => Numeric.num_leb stop x) xs)).
  assert (length out = length xs) as Hout by by apply split_length.
  assert (length back = length xs) as Hback.
  { unfold back. rewrite length_app, length_map, <- Hout. unfold out.
    by rewrite length_app, length_map. }
  set (h1 := h ++ [xs; out]).
  exists (Arr (S (length h)) [length out]), h1,
    (squeeze (Arr (length h1) [1; length out]%nat)), (h1 ++ [back]).
  split.
  { rewrite num_drop_range_single. cbn zeta. unfold Numeric.contents.
    rewrite Hxs. cbn [default id]. by rewrite range_selects_nothing. }
  split.
  { assert (h1 !! S (length h) = Some out) as Hlook.
    { unfold h1. rewrite lookup_app_r by lia.
      by replace (S (length h) - length h)%nat with 1%nat by lia. }
    rewrite (num_reinstate_range_1d_single h1 _ out) by done. cbn zeta.
    assert (Numeric._reinstate_range_1d out (start, stop) = back) as ->
      by by apply reinstate_dropped.
    rewrite num_assign_row_whole; [done|]. by rewrite Hback, Hout. }
  split.
  { unfold squeeze. cbn [shape]. rewrite !filter_cons, filter_nil, Hout.
    rewrite decide_False by (intros Hne; by apply Hne).
    destruct (decide (length xs = 1%nat)) as [->|Hne].
    - by rewrite decide_False by (intros Hne; by apply Hne).
    - by rewrite decide_True. }
  unfold squeeze. cbn [base]. rewrite num_contents_new.
  split; [done|]. split; [done|].
  intros Hsorted. by apply split_in_order.
Qed.

End rounded.

(** *** Exact numbers *)

(** On the integers the shift is the exact subtraction: a spike at the
    range end lands on the range start, and a dropped spike is restored
    to the original. *)
Lemma shifted_exact (start stop x : Z) :
  Numeric.shifted start stop x = x - (stop - start).
Proof.
  unfold Numeric.shifted. cbn [Numeric.num_truthy Numeric.num_sub Numeric.number_Z].
  destruct (Z.eqb_spec (stop - start) 0) as [Hz|Hnz]; cbn [negb]; lia.
Qed.

Lemma shifted_stop_exact (start stop : Z) : Numeric.shifted start stop stop = start.
Proof. rewrite shifted_exact. lia. Qed.

Lemma restored_exact (start stop x : Z) : Numeric.restored start stop x = x.
Proof.
  unfold Numeric.restored. rewrite shifted_exact.
  cbn [Numeric.num_add Numeric.num_sub Numeric.number_Z]. lia.
Qed.

(** * Worked instances *)

(** ** Binary64 spike times *)

(** The spike [0.10000000000000002] is after the range [-0.3, 0.1] and
    not in it.  Dropped, it is at [-0.3], the range start, where
    [reinstate_range] selects it twice and raises.  And the spikes
    [5, 1], around the range [2, 4], come back as [1, 5]. *)
Lemma drop_reinstate_not_recovered :
  (PrimFloat.leb (-0.3) 0.1 = true
   ∧ forallb (fun s => negb (PrimFloat.leb (-0.3) s && PrimFloat.leb s 0.1))
       [0.10000000000000002] = true
   ∧ Numeric.drop_range (T := float) (Arr 0 [1%nat]) [(-0.3, 0.1)] true
       [[0.10000000000000002]]
     = (Ok (Arr 2 [1%nat]), [[0.10000000000000002]; [0.10000000000000002]; [-0.3]])
   ∧ Numeric.reinstate_range (T := float) (Arr 2 [1%nat]) [(-0.3, 0.1)]
       [[0.10000000000000002]; [0.10000000000000002]; [-0.3]]
     = (Raise (ValueError "could not broadcast input array"),
        [[0.10000000000000002]; [0.10000000000000002]; [-0.3]; [-0.3]]))%float
  ∧ (PrimFloat.leb 2 4 = true
     ∧ forallb (fun s => negb (PrimFloat.leb 2 s && PrimFloat.leb s 4)) [5; 1] = true
     ∧ Numeric.drop_range (T := float) (Arr 0 [2%nat]) [(2, 4)] true [[5; 1]]
       = (Ok (Arr 2 [2%nat]), [[5; 1]; [5; 1]; [1; 3]])
     ∧ Numeric.reinstate_range (T := float) (Arr 2 [2%nat]) [(2, 4)]
         [[5; 1]; [5; 1]; [1; 3]]
       = (Ok (Arr 3 [2%nat]), [[5; 1]; [5; 1]; [1; 3]; [1; 5]])
     ∧ Numeric.contents (T := float) [[5; 1]; [5; 1]; [1; 3]; [1; 5]] (Arr 3 [2%nat])
       = [1; 5]
     ∧ Numeric.contents (T := float) [[5; 1]; [5; 1]; [1; 3]; [1; 5]] (Arr 3 [2%nat])
       ≠ [5; 1])%float.
Proof.
  split.
  - split; [reflexivity|]. split; [reflexivity|].
    split; [by vm_compute|]. by vm_compute.
  - split; [reflexivity|]. split; [reflexivity|].
    split; [by vm_compute|]. split; [by vm_compute|]. split; [reflexivity|].
    intros Heq.
    apply (f_equal (fun l => match l with
                             | x :: _ => PrimFloat.eqb x 5
                             | [] => true
                             end)) in Heq.
    vm_compute in Heq. discriminate.
Qed.

Lemma drop_reinstate_rounded_witness :
  (Numeric.ordered_on
     (42.6 :: 48.2 :: [1; 91.7] ++ map (Numeric.shifted 42.6 48.2) [1; 91.7]) = true
   ∧ PrimFloat.leb 42.6 48.2 = true
   ∧ forallb (fun s => negb (PrimFloat.leb 42.6 s && PrimFloat.leb s 48.2)) [1; 91.7]
     = true
   ∧ forallb (fun x => implb (PrimFloat.leb 48.2 x)
                         (negb (PrimFloat.leb (Numeric.shifted 42.6 48.2 x) 42.6)))
       [1; 91.7] = true
   ∧ Numeric.sortedb [1; 91.7] = true
   ∧ ∃ dropped h1 out h2,
       Numeric.drop_range (T := float) (Arr 0 [2%nat]) [(42.6, 48.2)] true [[1; 91.7]]
       = (Ok dropped, h1)
       ∧ Numeric.reinstate_range dropped [(42.6, 48.2)] h1 = (Ok out, h2)
       ∧ shape out = [2%nat]
       ∧ Numeric.contents h2 out = [1; (91.7 - (48.2 - 42.6)) + (48.2 - 42.6)]
       ∧ Numeric.contents h2 out = [1; 91.69999999999999])%float.
Proof.
  assert (Numeric.ordered_on
            (42.6 :: 48.2 :: [1; 91.7] ++ map (Numeric.shifted 42.6 48.2) [1; 91.7])%float
          = true) as Hord by reflexivity.
  assert (PrimFloat.leb 42.6 48.2 = true) as Hle by reflexivity.
  assert (forallb (fun s => negb (PrimFloat.leb 42.6 s && PrimFloat.leb s 48.2))
            [1; 91.7] = true)%float as Hempty by reflexivity.
  assert (forallb (fun x => implb (PrimFloat.leb 48.2 x)
                              (negb (PrimFloat.leb (Numeric.shifted 42.6 48.2 x) 42.6)))
            [1; 91.7] = true)%float as Hafter by reflexivity.
  assert (Numeric.sortedb [1; 91.7]%float = true) as Hsorted by reflexivity.
  split; [exact Hord|]. split; [exact Hle|]. split; [exact Hempty|].
  split; [exact Hafter|]. split; [exact Hsorted|].
  destruct (drop_reinstate_rounded (T := float) [[1; 91.7]]%float (Arr 0 [2%nat])
              [1; 91.7]%float 42.6%float 48.2%float
              eq_refl eq_refl Hord Hle Hempty Hafter)
    as (dropped & h1 & out & h2 & Hdrop & Hback & Hshape & _ & _ & Hplace).
  exists dropped, h1, out, h2.
  split; [exact Hdrop|]. split; [exact Hback|]. split; [exact Hshape|].
  split; [exact (Hplace Hsorted)|]. exact (Hplace Hsorted).
Defined.

(** A spike at the range end [137.1], dropped with the range
    [56.9, 137.1], is retained at [56.900000000000006], after the range
    start. *)
Lemma drop_range_stop_off_start :
  (Numeric.drop_range (T := float) (Arr 0 [1%nat]) [(56.9, 137.1)] false [[137.1]]
   = (Ok (Arr 2 [1%nat]), [[137.1]; [137.1]; [137.1 - (137.1 - 56.9)]])
   ∧ PrimFloat.eqb (137.1 - (137.1 - 56.9)) 56.900000000000006 = true
   ∧ PrimFloat.eqb (137.1 - (137.1 - 56.9)) 56.9 = false
   ∧ PrimFloat.ltb 56.9 (137.1 - (137.1 - 56.9)) = true)%float.
Proof.
  split; [by vm_compute|]. split; [reflexivity|]. split; reflexivity.
Qed.

Lemma drop_range_boundaries_rounded_witness :
  (Numeric.ordered_on [56.9; 137.1; 1; 56.9; 100; 137.1; 200] = true
   ∧ PrimFloat.leb 137.1 56.9 = false
   ∧ Numeric.drop_range (T := float) (Arr 0 [5%nat]) [(56.9, 137.1)] false
       [[1; 56.9; 100; 137.1; 200]]
     = (Ok (Arr 2 [4%nat]),
        [[1; 56.9; 100; 137.1; 200]; [1; 56.9; 100; 137.1; 200];
         [1; 56.9; 137.1 - (137.1 - 56.9); 200 - (137.1 - 56.9)]])
   ∧ 56.9 ∈ [1; 56.9; 137.1 - (137.1 - 56.9); 200 - (137.1 - 56.9)]
   ∧ (137.1 - (137.1 - 56.9)) ∈ [1; 56.9; 137.1 - (137.1 - 56.9); 200 - (137.1 - 56.9)]
   ∧ Nat.add (length [1; 56.9; 137.1 - (137.1 - 56.9); 200 - (137.1 - 56.9)])
       (length [100]) = 5%nat)%float.
Proof.
  destruct (drop_range_boundaries_rounded (T := float) (Arr 0 [5%nat])
              56.9%float 137.1%float [[1; 56.9; 100; 137.1; 200]]%float)
    as (Hrun & _ & _ & Hstart & Hstop & _ & Hcount).
  assert (Numeric.ordered_on [56.9; 137.1; 1; 56.9; 100; 137.1; 200]%float = true)
    as Hord by reflexivity.
  assert (PrimFloat.leb 137.1 56.9 = false) as Hlt by reflexivity.
  split; [exact Hord|]. split; [exact Hlt|]. split; [exact Hrun|].
  split; [apply Hstart; [by right; left|reflexivity]|].
  split; [apply Hstop; [by do 3 right; left|reflexivity]|].
  exact (Hcount Hord Hlt).
Defined.

(** ** Integer spike times *)

Lemma epoch_spikes_by_event_trials_witness :
  ([10; 4] : list Z) !! 1%nat = Some 4
  ∧ epoch_spikes_by_event [1; 5; 9; 12] [10; 4] (-2, 2) !! 1%nat = Some (Some [1])
  ∧ Forall (fun s => ¬ (20 + -2 ≤ s ≤ 20 + 2)) [1; 5; 9; 12]
  ∧ epoch_spikes_by_event [1; 5; 9; 12] [10; 20] (-2, 2) !! 1%nat = Some (Some []).
Proof.
  assert (Forall (fun s => ¬ (20 + -2 ≤ s ≤ 20 + 2)) [1; 5; 9; 12]) as Hnone
    by (repeat constructor; lia).
  split; [reflexivity|].
  split.
  - destruct (epoch_spikes_by_event_trials [1; 5; 9; 12] [10; 4] (-2, 2)) as [_ Htrial].
    destruct (Htrial 1%nat 4 eq_refl) as (Hlook & _ & _). exact Hlook.
  - split; [exact Hnone|].
    destruct (epoch_spikes_by_event_trials [1; 5; 9; 12] [10; 20] (-2, 2)) as [_ Htrial].
    destruct (Htrial 1%nat 20 eq_refl) as (_ & _ & Hnil). exact (Hnil Hnone).
Defined.

(** C5: the claim as stated fails for 2d values.  With two rows, the
    batched result for the one query is the 2 x 1 array [[10], [30]];
    its entry [0] is the row [[10]], while the scalar resolver returns
    the column [[10, 30]]. *)
Lemma batch_scalar_two_rows :
  within_threshold [1; 2] 1 None
  ∧ get_values_by_times [1; 2] (Vals2 2 [[10; 20]; [30; 40]]) [1] None true
    = Ok (Arr2 1 [[Fin 10]; [Fin 30]])
  ∧ get_values_by_times [1; 2] (Vals2 2 [[10; 20]; [30; 40]]) [1] None true ≫= getitem0
    = Ok (Arr1 [Fin 10])
  ∧ get_value_by_time [1; 2] (Vals2 2 [[10; 20]; [30; 40]]) 1 None
    = Ok (Arr1 [Fin 10; Fin 30])
  ∧ get_values_by_times [1; 2] (Vals2 2 [[10; 20]; [30; 40]]) [1] None true ≫= getitem0
    ≠ get_value_by_time [1; 2] (Vals2 2 [[10; 20]; [30; 40]]) 1 None.
Proof.
  split; [exact I|]. split; [by vm_compute|]. split; [by vm_compute|].
  split; [by vm_compute|]. by vm_compute.
Qed.

Lemma batch_scalar_last_axis_witness :
  within_threshold [1; 2; 3] 4 (Some 1)
  ∧ get_values_by_times [1; 2; 3] (Vals1 [10; 20; 30]) [4] (Some 1) true ≫= getitem0
    = get_value_by_time [1; 2; 3] (Vals1 [10; 20; 30]) 4 (Some 1)
  ∧ get_values_by_times [1; 2; 3] (Vals2 3 [[10; 20; 30]; [40; 50; 60]]) [4] (Some 1) true
    ≫= getcol0
    = get_value_by_time [1; 2; 3] (Vals2 3 [[10; 20; 30]; [40; 50; 60]]) 4 (Some 1).
Proof.
  assert (within_threshold [1; 2; 3] 4 (Some 1)) as Hwithin.
  { intros d Hd. vm_compute in Hd. injection Hd as <-. lia. }
  split; [exact Hwithin|]. split.
  - exact (batch_scalar_last_axis [1; 2; 3] (Vals1 [10; 20; 30]) 4 (Some 1) Hwithin).
  - exact (batch_scalar_last_axis [1; 2; 3] (Vals2 3 [[10; 20; 30]; [40; 50; 60]]) 4
             (Some 1) Hwithin).
Defined.

Lemma drop_range_check_empty_witness :
  Exists spike_within (drop_trace [1; 8; 9] 0 [(2, 4); (7, 9)])
  ∧ (∃ h', drop_range (Arr 0 [3%nat]) [(2, 4); (7, 9)] true [[1; 8; 9]]
           = (Raise AssertionError, h'))
  ∧ Forall (fun st => ¬ spike_within st) (drop_trace [1; 8; 12] 0 [(2, 4); (9, 11)])
  ∧ (∃ a' h', drop_range (Arr 0 [3%nat]) [(2, 4); (9, 11)] true [[1; 8; 12]] = (Ok a', h')
              ∧ drop_range (Arr 0 [3%nat]) [(2, 4); (9, 11)] false [[1; 8; 12]] = (Ok a', h')).
Proof.
  assert (Exists spike_within (drop_trace [1; 8; 9] 0 [(2, 4); (7, 9)])) as Hsome.
  { apply (bool_decide_unpack _). by vm_compute. }
  assert (Forall (fun st => ¬ spike_within st)
            (drop_trace [1; 8; 12] 0 [(2, 4); (9, 11)])) as Hnone.
  { apply (bool_decide_unpack _). by vm_compute. }
  split; [exact Hsome|]. split.
  - exact (proj1 (drop_range_check_empty (Arr 0 [3%nat]) [(2, 4); (7, 9)] [[1; 8; 9]]) Hsome).
  - split; [exact Hnone|].
    exact (proj2 (drop_range_check_empty (Arr 0 [3%nat]) [(2, 4); (9, 11)] [[1; 8; 12]])
             Hnone).
Defined.

Lemma drop_reinstate_preserve_input_witness :
  ([[1; 2; 3]] : heap) !! 0%nat = Some [1; 2; 3]
  ∧ (drop_range (Arr 0 [3%nat]) [(2, 4)] true [[1; 2; 3]]).2 !! 0%nat = Some [1; 2; 3]
  ∧ (reinstate_range (Arr 0 [3%nat]) [(2, 4)] [[1; 2; 3]]).2 !! 0%nat = Some [1; 2; 3].
Proof.
  split; [reflexivity|].
  exact (drop_reinstate_preserve_input (Arr 0 [3%nat]) [(2, 4)] true [[1; 2; 3]] 0%nat
           [1; 2; 3] eq_refl).
Defined.

Lemma reinstate_range_spike_at_start_witness :
  ([[1; 2; 3]] : heap) !! 0%nat = Some [1; 2; 3]
  ∧ (2 : Z) ∈ [1; 2; 3]
  ∧ (length [1; 2; 3]%Z < length (_reinstate_range_1d [1; 2; 3]%Z (2, 4)%Z))%nat
  ∧ reinstate_range (Arr 0 [3%nat]) [(2, 4)] [[1; 2; 3]]
    = (Raise (ValueError "could not broadcast input array"), [[1; 2; 3]] ++ [[1; 2; 3]]).
Proof.
  assert ((2 : Z) ∈ [1; 2; 3]) as Hin by (apply list_elem_of_In; right; left; reflexivity).
  split; [reflexivity|]. split; [exact Hin|].
  destruct (reinstate_range_spike_at_start [[1; 2; 3]] (Arr 0 [3%nat]) [1; 2; 3] 2 4 []
              eq_refl eq_refl Hin) as (_ & _ & _ & Hlen & Hrun).
  split; [exact Hlen|exact Hrun].
Defined.

(** ** Instances of the further properties *)

Lemma get_value_range_parallel_witness :
  length [10; 20; 30] = length [1; 5; 3]
  ∧ get_value_range [10; 20; 30] [1; 5; 3] (Some 2) None (Some 10) = Ok ([10; 20], [5; 3])
  ∧ length [10; 20] ≠ length [1; 5; 3]
  ∧ get_value_range [10; 20] [1; 5; 3] (Some 2) None None = Raise IndexError.
Proof.
  assert (length [10; 20] ≠ length [1; 5; 3]) as Hne by discriminate.
  split; [reflexivity|]. split.
  - exact (proj1 (get_value_range_parallel [10; 20; 30] [1; 5; 3] (Some 2) None (Some 10))
             eq_refl).
  - split; [exact Hne|].
    exact (proj2 (get_value_range_parallel [10; 20] [1; 5; 3] (Some 2) None None) Hne).
Defined.

Lemma get_ind_by_time_nearest_first_witness :
  ([1; 3; 5] : list Z) ≠ []
  ∧ ∃ k t, get_ind_by_time [1; 3; 5] 4 None = Ok (Z.of_nat k)
           ∧ ([1; 3; 5] : list Z) !! k = Some t
           ∧ Forall (fun t' => Z.abs (t - 4) ≤ Z.abs (t' - 4)) [1; 3; 5]
           ∧ Forall (fun t' => Z.abs (t - 4) < Z.abs (t' - 4)) (take k [1; 3; 5]).
Proof.
  assert (([1; 3; 5] : list Z) ≠ []) as Hne by discriminate.
  split; [exact Hne|]. exact (get_ind_by_time_nearest_first [1; 3; 5] 4 Hne).
Defined.

Lemma get_ind_by_time_member_witness :
  (3 : Z) ∈ [1; 3; 5; 3]
  ∧ (∀ th, Some 0 = Some th -> 0 ≤ th)
  ∧ ∃ k, get_ind_by_time [1; 3; 5; 3] 3 (Some 0) = Ok (Z.of_nat k)
         ∧ ([1; 3; 5; 3] : list Z) !! k = Some 3
         ∧ Forall (fun t' => t' ≠ 3) (take k [1; 3; 5; 3]).
Proof.
  assert ((3 : Z) ∈ [1; 3; 5; 3]) as Hin
    by (apply list_elem_of_In; right; left; reflexivity).
  assert (∀ th, Some 0 = Some th -> 0 ≤ th) as Hth by (intros th [= <-]; lia).
  split; [exact Hin|]. split; [exact Hth|].
  exact (get_ind_by_time_member [1; 3; 5; 3] 3 (Some 0) Hin Hth).
Defined.

Lemma get_ind_by_time_sentinel_witness :
  min_distance [1; 2; 3] 5 = Some 2
  ∧ ∃ i, get_ind_by_time [1; 2; 3] 5 (Some 1) = Ok i
         ∧ -1 ≤ i < Z.of_nat (length [1; 2; 3])
         ∧ (i = -1 ↔ ∃ th, Some 1 = Some th ∧ th ≠ 0 ∧ th < 2).
Proof.
  split; [reflexivity|].
  exact (get_ind_by_time_sentinel [1; 2; 3] 5 (Some 1) 2 eq_refl).
Defined.

Lemma get_inds_by_times_per_query_witness :
  ([1; 2; 3] : list Z) ≠ []
  ∧ ∃ inds, Forall2 (fun tp i => get_ind_by_time [1; 2; 3] tp (Some 1) = Ok i) [1; 7; 3] inds
            ∧ get_inds_by_times [1; 2; 3] [1; 7; 3] (Some 1) false = Ok inds
            ∧ get_inds_by_times [1; 2; 3] [1; 7; 3] (Some 1) true
              = Ok (filter (fun i => 0 ≤ i) inds).
Proof.
  assert (([1; 2; 3] : list Z) ≠ []) as Hne by discriminate.
  split; [exact Hne|]. exact (get_inds_by_times_per_query [1; 2; 3] [1; 7; 3] (Some 1) Hne).
Defined.

Lemma get_inds_by_times_no_threshold_witness :
  ([1; 2; 3] : list Z) ≠ []
  ∧ ∃ inds, get_inds_by_times [1; 2; 3] [1; 7; 3] None true = Ok inds
            ∧ length inds = length [1; 7; 3]
            ∧ Forall (fun i => 0 ≤ i < Z.of_nat (length [1; 2; 3])) inds.
Proof.
  assert (([1; 2; 3] : list Z) ≠ []) as Hne by discriminate.
  split; [exact Hne|]. exact (get_inds_by_times_no_threshold [1; 2; 3] [1; 7; 3] true Hne).
Defined.

Lemma get_values_by_times_1d_witness :
  ([1; 2; 3; 4; 5] : list Z) ≠ []
  ∧ (length [1; 2; 3; 4; 5] ≤ length [5; 8; 4; 6; 7])%nat
  ∧ ∃ inds,
      Forall2 (fun tp i => get_ind_by_time [1; 2; 3; 4; 5] tp None = Ok i) [2; 4] inds
      ∧ get_values_by_times [1; 2; 3; 4; 5] (Vals1 [5; 8; 4; 6; 7]) [2; 4] None true
        = Ok (Arr1 ((fun i => at_pos [5; 8; 4; 6; 7] (Z.to_nat i))
                    <$> filter (fun i => 0 ≤ i) inds)).
Proof.
  assert (([1; 2; 3; 4; 5] : list Z) ≠ []) as Hne by discriminate.
  assert (length [1; 2; 3; 4; 5] ≤ length [5; 8; 4; 6; 7])%nat as Hlen by (cbn; lia).
  split; [exact Hne|]. split; [exact Hlen|].
  exact (get_values_by_times_1d [1; 2; 3; 4; 5] [5; 8; 4; 6; 7] [2; 4] None Hne Hlen).
Defined.

Lemma get_values_by_times_keep_null_witness :
  ([1; 2; 3] : list Z) ≠ []
  ∧ (length [1; 2; 3] ≤ length [10; 20; 30])%nat
  ∧ ∃ inds,
      Forall2 (fun tp i => get_ind_by_time [1; 2; 3] tp (Some 1) = Ok i) [1; 7; 3] inds
      ∧ get_values_by_times [1; 2; 3] (Vals1 [10; 20; 30]) [1; 7; 3] (Some 1) false
        = Ok (Arr1 ((fun i => if decide (0 ≤ i) then at_pos [10; 20; 30] (Z.to_nat i) else NaN)
                    <$> inds)).
Proof.
  assert (([1; 2; 3] : list Z) ≠ []) as Hne by discriminate.
  assert (length [1; 2; 3] ≤ length [10; 20; 30])%nat as Hlen by (cbn; lia).
  split; [exact Hne|]. split; [exact Hlen|].
  exact (get_values_by_times_keep_null [1; 2; 3] [10; 20; 30] [1; 7; 3] (Some 1) Hne Hlen).
Defined.

Lemma get_values_by_time_range_pairs_witness :
  length [1; 2; 3; 4; 5] = length [5; 8; 4; 6; 7]
  ∧ get_values_by_time_range [1; 2; 3; 4; 5] (Vals1 [5; 8; 4; 6; 7]) 2 4
    = Ok ([2; 3; 4], Arr1 [Fin 8; Fin 4; Fin 6]).
Proof.
  split; [reflexivity|].
  exact (get_values_by_time_range_pairs [1; 2; 3; 4; 5] [5; 8; 4; 6; 7] 2 4 eq_refl).
Defined.

Lemma threshold_spikes_by_times_keeps_witness :
  ([2; 10] : list Z) ≠ []
  ∧ threshold_spikes_by_times [1; 5; 9] [2; 10] 2 = Ok [1; 9].
Proof.
  assert (([2; 10] : list Z) ≠ []) as Hne by discriminate.
  split; [exact Hne|]. exact (threshold_spikes_by_times_keeps [1; 5; 9] [2; 10] 2 Hne).
Defined.

Lemma threshold_spikes_by_times_edges_witness :
  ([2; 10] : list Z) ≠ []
  ∧ 0 ≤ 0
  ∧ threshold_spikes_by_times [2; 5] [2; 10] 0 = Ok []
  ∧ ([2; 5] : list Z) ≠ []
  ∧ threshold_spikes_by_times [2; 5] [] 3
    = Raise (ValueError "zero-size array to reduction operation minimum which has no identity").
Proof.
  assert (([2; 10] : list Z) ≠ []) as Hne by discriminate.
  assert (([2; 5] : list Z) ≠ []) as Hspikes by discriminate.
  assert (0 ≤ 0) as Hle by lia.
  split; [exact Hne|]. split; [exact Hle|]. split.
  - exact (proj1 (threshold_spikes_by_times_edges [2; 5] [2; 10] 0) Hne Hle).
  - split; [exact Hspikes|].
    exact (proj2 (threshold_spikes_by_times_edges [2; 5] [] 3) Hspikes).
Defined.

Lemma drop_range_checked_count_witness :
  Forall (fun r : trange_t => r.1 ≤ r.2) [(2, 4); (6, 8)]
  ∧ drop_range (Arr 0 [3%nat]) [(2, 4); (6, 8)] true [[1; 5; 9]]
    = (Ok (Arr 3 [3%nat]), [[1; 5; 9]; [1; 5; 9]; [1; 3; 7]; [1; 3; 5]])
  ∧ length (contents [[1; 5; 9]; [1; 5; 9]; [1; 3; 7]; [1; 3; 5]] (Arr 3 [3%nat]))
    = length (contents [[1; 5; 9]] (Arr 0 [3%nat])).
Proof.
  assert (Forall (fun r : trange_t => r.1 ≤ r.2) [(2, 4); (6, 8)]) as Hwf
    by (repeat constructor; cbn; lia).
  assert (drop_range (Arr 0 [3%nat]) [(2, 4); (6, 8)] true [[1; 5; 9]]
          = (Ok (Arr 3 [3%nat]), [[1; 5; 9]; [1; 5; 9]; [1; 3; 7]; [1; 3; 5]])) as Hrun
    by (vm_compute; reflexivity).
  split; [exact Hwf|]. split; [exact Hrun|].
  exact (drop_range_checked_count (Arr 0 [3%nat]) [(2, 4); (6, 8)] [[1; 5; 9]] _ _ Hwf Hrun).
Defined.

Lemma reinstate_range_shifts_witness :
  ([[1; 5]] : heap) !! 0%nat = Some [1; 5]
  ∧ ((2 : Z) ∉ [1; 5])
  ∧ Sorted Z.le [1; 5]
  ∧ ∃ out h',
      reinstate_range (Arr 0 [2%nat]) [(2, 4)] [[1; 5]] = (Ok out, h')
      ∧ length (contents h' out) = length [1; 5]
      ∧ contents h' out = map (fun s => if decide (s < 2) then s else s + (4 - 2)) [1; 5].
Proof.
  assert ((2 : Z) ∉ [1; 5]) as Hnot.
  { intros Hin. apply list_elem_of_In in Hin. cbn in Hin.
    destruct Hin as [Hin|[Hin|[]]]; discriminate Hin. }
  assert (Sorted Z.le [1; 5]) as Hsorted by (repeat constructor; lia).
  split; [reflexivity|]. split; [exact Hnot|]. split; [exact Hsorted|].
  destruct (reinstate_range_shifts [[1; 5]] (Arr 0 [2%nat]) [1; 5] 2 4 eq_refl eq_refl Hnot)
    as (out & h' & Hrun & _ & Hlen & Hmap).
  exists out, h'. split; [exact Hrun|]. split; [exact Hlen|]. exact (Hmap Hsorted).
Defined.

Lemma reinstate_range_rows_witness :
  ([[1; 5; 0; 9]] : heap) !! 0%nat = Some (concat [[1; 5]; [0; 9]])
  ∧ Forall (fun row : list Z => length row = 2%nat) [[1; 5]; [0; 9]]
  ∧ Forall (fun row : list Z => 2 ∉ row) [[1; 5]; [0; 9]]
  ∧ reinstate_range (Arr 0 [2; 2]%nat) [(2, 4)] [[1; 5; 0; 9]]
    = (Ok (Arr 1 [2; 2]%nat), [[1; 5; 0; 9]; [1; 7; 0; 11]]).
Proof.
  assert (Forall (fun row : list Z => length row = 2%nat) [[1; 5]; [0; 9]]) as Hwidth
    by (repeat constructor).
  assert (Forall (fun row : list Z => 2 ∉ row) [[1; 5]; [0; 9]]) as Hnot.
  { repeat constructor; intros Hin; apply list_elem_of_In in Hin; cbn in Hin;
      destruct Hin as [Hin|[Hin|[]]]; discriminate Hin. }
  split; [reflexivity|]. split; [exact Hwidth|]. split; [exact Hnot|].
  exact (reinstate_range_rows [[1; 5; 0; 9]] (Arr 0 [2; 2]%nat) [[1; 5]; [0; 9]] 2%nat 2 4
           eq_refl eq_refl Hwidth Hnot).
Defined.

Lemma sim_spiketrain_prob_train_witness :
  (∀ n, length (replicate n 0%Qc) = n)
  ∧ 0 ≤ 3
  ∧ ∃ spikes,
      sim_spiketrain_prob (fun n => replicate n 0%Qc) (PFloat 1%Qc) (Some 3) = Ok spikes
      ∧ length spikes = Z.to_nat 3 ∧ Forall binary spikes.
Proof.
  assert (∀ n, length (replicate n 0%Qc) = n) as Hlen
    by (intros n; apply length_replicate).
  assert (0 ≤ 3) as Hn by lia.
  split; [exact Hlen|]. split; [exact Hn|].
  exact (proj1 (proj2 (sim_spiketrain_prob_train (fun n => replicate n 0%Qc) Hlen
                         1%Qc [] 3 None)) Hn).
Defined.

Lemma sim_spiketrain_prob_extremes_witness :
  (∀ n, length (replicate n 0%Qc) = n)
  ∧ (∀ n, Forall (fun u => (0 <= u)%Qc ∧ (u < 1)%Qc) (replicate n 0%Qc))
  ∧ 0 ≤ 3
  ∧ (0 <= 0)%Qc
  ∧ sim_spiketrain_prob (fun n => replicate n 0%Qc) (PFloat 0%Qc) (Some 3)
    = Ok (replicate (Z.to_nat 3) 0)
  ∧ (1 <= 1)%Qc
  ∧ sim_spiketrain_prob (fun n => replicate n 0%Qc) (PFloat 1%Qc) (Some 3)
    = Ok (replicate (Z.to_nat 3) 1).
Proof.
  assert (∀ n, length (replicate n 0%Qc) = n) as Hlen
    by (intros n; apply length_replicate).
  assert (∀ n, Forall (fun u => (0 <= u)%Qc ∧ (u < 1)%Qc) (replicate n 0%Qc)) as Hunit.
  { intros n. apply Forall_replicate. split; [apply Qcle_refl|reflexivity]. }
  assert (0 ≤ 3) as Hn by lia.
  assert (0 <= 0)%Qc as Hzero by apply Qcle_refl.
  assert (1 <= 1)%Qc as Hone by apply Qcle_refl.
  split; [exact Hlen|]. split; [exact Hunit|]. split; [exact Hn|].
  split; [exact Hzero|]. split.
  - exact (proj1 (sim_spiketrain_prob_extremes (fun n => replicate n 0%Qc) Hlen Hunit
                    0%Qc 3 Hn) Hzero).
  - split; [exact Hone|].
    exact (proj2 (sim_spiketrain_prob_extremes (fun n => replicate n 0%Qc) Hlen Hunit
                    1%Qc 3 Hn) Hone).
Defined.
